(** * emptybutton/effect: the Effect aggregate and its combination operator

  Shallow embedding of [src/effect/effect.py].  The modules
  [effect.identity] and [effect.state_transition] are imported by that
  file; the parts of them that [Effect] relies on are modelled in
  [Module Identity] and [Module StateTransition] below. *)

From stdpp Require Import base option list gmap fin_maps.

(** ** Identified values and identity-keyed sets *)

Module Identity.
Section identity.
Context {K : Type} `{Countable K} {P : Type}.

(** Modelled from the spec: [effect.identity.IdentifiedValue], a domain
    value whose declared identifier field [id] is its identity; every other
    field is carried along opaquely ([value_rest]). *)
Record IdentifiedValue : Type := Value { value_id : K; value_rest : P }.

(** Modelled from the spec: [effect.identity.Identity], a wrapper of a
    value that compares by the identifier of the wrapped value only. *)
Record Identity : Type := IdentityOf { value : IdentifiedValue }.

Definition Identity_eqb (i j : Identity) : bool :=
  bool_decide (value_id (value i) = value_id (value j)).

(** Modelled from the spec: [effect.identity.IdentifiedValueSet], "a
    mapping from Identity to the most-recently-inserted value sharing that
    identity".  The key is the identifier, the stored datum the remaining
    fields, so at most one value is stored per identity. *)
Definition IdentifiedValueSet : Type := gmap K P.

Definition insert_value (s : gmap K P) (v : IdentifiedValue) : gmap K P :=
  <[value_id v := value_rest v]> s.

(** [IdentifiedValueSet(values)]: later values replace earlier ones of the
    same identity. *)
Definition of_values (vs : list IdentifiedValue) : gmap K P :=
  foldl insert_value ∅ vs.

(** [iter(set)]. *)
Definition values (s : gmap K P) : list IdentifiedValue :=
  (λ kp, Value kp.1 kp.2) <$> map_to_list s.

(** [set.identities]. *)
Definition identities (s : gmap K P) : list Identity :=
  IdentityOf <$> values s.

(** [left | right]: on conflict the right operand's value wins. *)
Definition set_or (l r : gmap K P) : gmap K P := r ∪ l.

(** [left & right]: identities in both, value of the right operand. *)
Definition set_and (l r : gmap K P) : gmap K P := r ∩ l.

(** [left - right]: identities of the left operand absent from the right. *)
Definition set_sub (l r : gmap K P) : gmap K P := l ∖ r.

(** [set.contains(value)]: membership by full value equality. *)
Definition contains `{EqDecision P} (s : gmap K P) (v : IdentifiedValue) : bool :=
  bool_decide (s !! value_id v = Some (value_rest v)).
End identity.
Arguments IdentifiedValue : clear implicits.
Arguments Identity K P : clear implicits.
Arguments IdentifiedValueSet K {_ _} P.
End Identity.
Import Identity.

(** ** Tagged values and their combination rule *)

Module StateTransition.
Section state_transition.
Context {V : Type}.

(** The five tagged variants imported from [effect.state_transition]. *)
Inductive StateTransition : Type :=
| NewValue (just : V)
| TranslatedValue (just : V)
| MutatedValue (just : V)
| DeadValue (just : V)
| NoValue (just : V).

Inductive Tag : Type := N | T | M | D | E.

Definition tag (s : StateTransition) : Tag :=
  match s with
  | NewValue _ => N
  | TranslatedValue _ => T
  | MutatedValue _ => M
  | DeadValue _ => D
  | NoValue _ => E
  end.

Definition just_of (s : StateTransition) : V :=
  match s with
  | NewValue v | TranslatedValue v | MutatedValue v | DeadValue v
  | NoValue v => v
  end.

Definition with_tag (t : Tag) (v : V) : StateTransition :=
  match t with
  | N => NewValue v
  | T => TranslatedValue v
  | M => MutatedValue v
  | D => DeadValue v
  | E => NoValue v
  end.

(** Modelled from the spec: the [&] of two tagged values of
    [effect.state_transition], which is not part of the sources at hand.
    It follows the table of section 4.2 row by row; [None] stands for
    raising [InvalidStateTransitionError].  In the row of the neutral tag
    the right operand propagates, also when it is neutral itself. *)
Definition and_ (left right : StateTransition) : option StateTransition :=
  match left, right with
  | NewValue _, NewValue r => Some (NewValue r)
  | NewValue _, TranslatedValue _ => None
  | NewValue _, MutatedValue r => Some (NewValue r)
  | NewValue _, DeadValue r => Some (NoValue r)
  | NewValue l, NoValue _ => Some (NewValue l)
  | TranslatedValue _, NewValue _ => None
  | TranslatedValue _, TranslatedValue r => Some (TranslatedValue r)
  | TranslatedValue _, MutatedValue r => Some (TranslatedValue r)
  | TranslatedValue _, DeadValue r => Some (NoValue r)
  | TranslatedValue l, NoValue _ => Some (TranslatedValue l)
  | MutatedValue _, NewValue _ => None
  | MutatedValue _, TranslatedValue _ => None
  | MutatedValue _, MutatedValue r => Some (MutatedValue r)
  | MutatedValue _, DeadValue r => Some (DeadValue r)
  | MutatedValue l, NoValue _ => Some (MutatedValue l)
  | DeadValue _, NewValue _ => None
  | DeadValue _, TranslatedValue _ => None
  | DeadValue _, MutatedValue _ => None
  | DeadValue _, DeadValue r => Some (DeadValue r)
  | DeadValue l, NoValue _ => Some (DeadValue l)
  | NoValue _, NewValue r => Some (NewValue r)
  | NoValue _, TranslatedValue r => Some (TranslatedValue r)
  | NoValue _, MutatedValue r => Some (MutatedValue r)
  | NoValue _, DeadValue r => Some (DeadValue r)
  | NoValue _, NoValue r => Some (NoValue r)
  end.

(** The seven ordered pairs the specification lists as invalid. *)
Definition listed_invalid (l r : Tag) : bool :=
  match l, r with
  | N, T | T, N | M, N | M, T | D, N | D, T | D, M => true
  | _, _ => false
  end.
End state_transition.
Arguments StateTransition : clear implicits.
End StateTransition.
Import StateTransition.

(** ** The Effect aggregate *)

Section effect.
Context {K : Type} `{Countable K} {P : Type} `{EqDecision P}.

Local Abbreviation value := (IdentifiedValue K P).
Local Abbreviation tagged := (StateTransition (IdentifiedValue K P)).

(** [class Effect]: a frozen dataclass of a primary value and four
    identity-keyed sets. *)
Record Effect (J : Type) : Type := MkEffect {
  just : J;
  new_values : gmap K P;
  translated_values : gmap K P;
  mutated_values : gmap K P;
  dead_values : gmap K P;
}.
Arguments MkEffect {J}.
Arguments just {J}.
Arguments new_values {J}.
Arguments translated_values {J}.
Arguments mutated_values {J}.
Arguments dead_values {J}.

Definition new_just (s : tagged) : option value :=
  match s with NewValue v => Some v | _ => None end.
Definition translated_just (s : tagged) : option value :=
  match s with TranslatedValue v => Some v | _ => None end.
Definition mutated_just (s : tagged) : option value :=
  match s with MutatedValue v => Some v | _ => None end.
Definition dead_just (s : tagged) : option value :=
  match s with DeadValue v => Some v | _ => None end.

(** [Effect.of_values_with_state]: each generator
    [value.just for value in values if isinstance(value, XValue)] is an
    [omap]. *)
Definition of_values_with_state {J} (j : J) (vs : list tagged) : Effect J :=
  MkEffect j
    (of_values (omap new_just vs))
    (of_values (omap translated_just vs))
    (of_values (omap mutated_just vs))
    (of_values (omap dead_just vs)).

(** [Effect.__iter__]. *)
Definition tracked {J} (e : Effect J) : gmap K P :=
  set_or (set_or (set_or (new_values e) (translated_values e))
                 (mutated_values e))
         (dead_values e).

Definition iter {J} (e : Effect J) : list value := values (tracked e).

(** [Effect.value_with_state_by_value]. *)
Definition value_with_state_by_value {J} (e : Effect J) (v : value) : tagged :=
  if contains (new_values e) v then NewValue v
  else if contains (translated_values e) v then TranslatedValue v
  else if contains (mutated_values e) v then MutatedValue v
  else if contains (dead_values e) v then DeadValue v
  else NoValue v.

(** The loop [for x in set.identities: if identity == x: return ...]. *)
Definition first_equal (identity : Identity K P) (s : gmap K P)
  : option (Identity K P) :=
  List.find (Identity_eqb identity) (identities s).

(** [Effect.value_with_state_by_identity]. *)
Definition value_with_state_by_identity {J} (e : Effect J)
    (identity : Identity K P) : tagged :=
  match first_equal identity (new_values e) with
  | Some i => NewValue (Identity.value i)
  | None =>
    match first_equal identity (translated_values e) with
    | Some i => TranslatedValue (Identity.value i)
    | None =>
      match first_equal identity (mutated_values e) with
      | Some i => MutatedValue (Identity.value i)
      | None =>
        match first_equal identity (dead_values e) with
        | Some i => DeadValue (Identity.value i)
        | None => NoValue (Identity.value identity)
        end
      end
    end
  end.

(** The three generators chained into [next_values] by [Effect.__and__].
    Only the middle one can raise; [tuple(values)] in
    [of_values_with_state] forces all three before anything is built. *)
Definition next_left_difference_values {J J'} (self : Effect J)
    (right_effect : Effect J') : list tagged :=
  value_with_state_by_value self
    <$> values (set_sub (of_values (iter self)) (of_values (iter right_effect))).

Definition next_intersection_values {J J'} (self : Effect J)
    (right_effect : Effect J') : option (list tagged) :=
  mapM (λ identity,
          and_ (value_with_state_by_identity self identity)
               (value_with_state_by_identity right_effect identity))
       (identities (set_and (of_values (iter self))
                            (of_values (iter right_effect)))).

Definition next_right_difference_values {J J'} (self : Effect J)
    (right_effect : Effect J') : list tagged :=
  value_with_state_by_value right_effect
    <$> values (set_sub (of_values (iter right_effect)) (of_values (iter self))).

(** [Effect.__and__]; [None] is [InvalidStateTransitionError]. *)
Definition Effect_and {J J'} (self : Effect J) (right_effect : Effect J')
  : option (Effect J') :=
  inter ← next_intersection_values self right_effect;
  Some (of_values_with_state (just right_effect)
          (next_left_difference_values self right_effect
           ++ inter
           ++ next_right_difference_values self right_effect)).

(** [Effect.map]: the constructor call passes [new_values],
    [mutated_values] and [dead_values]; [translated_values] takes its
    default, the empty set. *)
Definition map {J R} (self : Effect J) (func : J → R) : Effect R :=
  MkEffect (func (just self))
    (new_values self)
    ∅
    (mutated_values self)
    (dead_values self).

(** [Effect(just)]: the four buckets take the defaults of the dataclass
    fields, the empty set. *)
Definition Effect_of {J} (j : J) : Effect J := MkEffect j ∅ ∅ ∅ ∅.

(** [Effect.and_then]. *)
Definition and_then {J J'} (self : Effect J) (func : J → Effect J')
  : option (Effect J') :=
  Effect_and self (func (just self)).

(** The reading of [and_then] in the specification:
    "equivalent to self & f(self.just)". *)
Definition and_then_spec {J J'} (self : Effect J) (f : J → Effect J')
  : option (Effect J') :=
  let right_effect := f (just self) in Effect_and self right_effect.
(** The tag and stored value an Effect holds for an identifier, looking
    into the buckets in the order of the two lookup methods; [None] when the
    identifier is in no bucket. *)
Definition lookup_state {J} (e : Effect J) (k : K) : option tagged :=
  match new_values e !! k with
  | Some p => Some (NewValue (Value k p))
  | None =>
    match translated_values e !! k with
    | Some p => Some (TranslatedValue (Value k p))
    | None =>
      match mutated_values e !! k with
      | Some p => Some (MutatedValue (Value k p))
      | None =>
        match dead_values e !! k with
        | Some p => Some (DeadValue (Value k p))
        | None => None
        end
      end
    end
  end.

(** The invariant of the data model: an identity is in at most one of the
    four buckets. *)
Definition one_bucket_per_identity {J} (e : Effect J) : Prop :=
  new_values e ##ₘ translated_values e ∧
  new_values e ##ₘ mutated_values e ∧
  new_values e ##ₘ dead_values e ∧
  translated_values e ##ₘ mutated_values e ∧
  translated_values e ##ₘ dead_values e ∧
  mutated_values e ##ₘ dead_values e.

(** The bucket of a tag; the neutral tag has none. *)
Definition bucket {J} (t : Tag) (e : Effect J) : gmap K P :=
  match t with
  | N => new_values e
  | T => translated_values e
  | M => mutated_values e
  | D => dead_values e
  | E => ∅
  end.

(** The generator of [of_values_with_state] that feeds the bucket of a tag. *)
Definition bucket_just (t : Tag) : tagged → option value :=
  match t with
  | N => new_just
  | T => translated_just
  | M => mutated_just
  | D => dead_just
  | E => λ _, None
  end.

(** What is kept of a combined tagged value: a neutral result is in no
    bucket. *)
Definition stored (s : tagged) : option tagged :=
  match s with NoValue _ => None | _ => Some s end.

(** The combination rule on the states two Effects hold for one identifier,
    an untracked identifier being neutral. *)
Definition and_states (x y : option tagged) : option (option tagged) :=
  match x, y with
  | Some a, Some b => stored <$> and_ a b
  | Some a, None => Some (Some a)
  | None, _ => Some y
  end.

(** The remaining fields a tagged value puts into the bucket of a tag. *)
Definition rest_if (t : Tag) (s : tagged) : option P :=
  value_rest <$> bucket_just t s.

(** Whether a tagged value has a bucket: every tag but the neutral one. *)
Definition has_bucket (s : tagged) : bool :=
  match s with NoValue _ => false | _ => true end.

(** An identity both operands of [&] track. *)
Definition shared {J J'} (l : Effect J) (r : Effect J') (i : Identity K P) : Prop :=
  is_Some (tracked l !! value_id (Identity.value i)) ∧
  is_Some (tracked r !! value_id (Identity.value i)).

(** What [Effect.__and__] hands to [of_values_with_state] for an
    identifier: [None] when the pairing raises, [Some None] when neither
    operand tracks it. *)
Definition next_value_at {J J'} (l : Effect J) (r : Effect J') (k : K)
  : option (option tagged) :=
  match tracked l !! k, tracked r !! k with
  | Some p, None => Some (Some (value_with_state_by_value l (Value k p)))
  | Some _, Some q =>
    Some <$> and_ (value_with_state_by_identity l (IdentityOf (Value k q)))
                  (value_with_state_by_identity r (IdentityOf (Value k q)))
  | None, Some q => Some (Some (value_with_state_by_value r (Value k q)))
  | None, None => Some None
  end.

(** An identity the pair [l & r] nets to the neutral tag: New or Translated
    in [l], Dead in [r]. *)
Definition nets_to_neutral {J J'} (l : Effect J) (r : Effect J') (k : K) : Prop :=
  (is_Some (new_values l !! k) ∨ is_Some (translated_values l !! k)) ∧
  is_Some (dead_values r !! k).
End effect.

Arguments Effect K {_ _} P J.
Arguments MkEffect {K _ _ P J}.
Arguments just {K _ _ P J}.
Arguments new_values {K _ _ P J}.
Arguments translated_values {K _ _ P J}.
Arguments mutated_values {K _ _ P J}.
Arguments dead_values {K _ _ P J}.


(** ** Sample values

    Three versions of one domain value (identifier 1), one value of another
    identity, and small Effects over them; identifiers and the remaining
    fields are natural numbers. *)

Definition x_v1 : IdentifiedValue nat nat := Value 1 10.
Definition x_v2 : IdentifiedValue nat nat := Value 1 20.
Definition x_v3 : IdentifiedValue nat nat := Value 1 30.
Definition y_v1 : IdentifiedValue nat nat := Value 2 10.

Definition created : Effect nat nat nat :=
  of_values_with_state 100 [NewValue x_v1].
Definition changed : Effect nat nat nat :=
  of_values_with_state 150 [MutatedValue x_v2; TranslatedValue y_v1].
Definition deleted : Effect nat nat nat :=
  of_values_with_state 200 [DeadValue x_v2].
Definition deleted_again : Effect nat nat nat :=
  of_values_with_state 300 [DeadValue x_v3].
Definition imported : Effect nat nat nat :=
  of_values_with_state 400 [TranslatedValue x_v1; NewValue y_v1].
Definition untouched : Effect nat nat nat :=
  of_values_with_state 500 [].

Definition other_created : Effect nat nat nat :=
  of_values_with_state 700 [NewValue y_v1].

(** An Effect that breaks the invariant: identifier 1 is both new and
    mutated, with different versions. *)
Definition twice_tagged : Effect nat nat nat :=
  of_values_with_state 600 [NewValue x_v1; MutatedValue x_v2].

(** ** Identity-keyed sets: basic facts *)

Section identity_facts.
Context {K : Type} `{Countable K} {P : Type}.

Local Abbreviation value := (IdentifiedValue K P).

Lemma of_values_snoc (vs : list value) (v : value) :
  of_values (vs ++ [v]) = insert_value (of_values vs) v.
Proof. unfold of_values. by rewrite foldl_app. Qed.

Lemma of_values_nil : of_values ([] : list value) = ∅.
Proof. done. Qed.

(** Whatever is stored was given to the constructor. *)
Lemma of_values_lookup_Some (vs : list value) k p :
  of_values vs !! k = Some p → Value k p ∈ vs.
Proof.
  induction vs as [|v vs IH] using rev_ind; [done|].
  rewrite of_values_snoc. unfold insert_value.
  destruct (decide (value_id v = k)) as [<-|Hne].
  - rewrite lookup_insert_eq. intros [= <-]. destruct v. set_solver.
  - rewrite lookup_insert_ne by done. set_solver.
Qed.

(** An identity is stored exactly when some given value has it. *)
Lemma of_values_lookup_None (vs : list value) k :
  of_values vs !! k = None ↔ k ∉ value_id <$> vs.
Proof.
  induction vs as [|v vs IH] using rev_ind.
  - split; [set_solver|done].
  - rewrite of_values_snoc, fmap_app. unfold insert_value. simpl.
    destruct (decide (value_id v = k)) as [<-|Hne].
    + rewrite lookup_insert_eq. split; [done|set_solver].
    + rewrite lookup_insert_ne by done. rewrite IH. set_solver.
Qed.

(** The value given last for an identity is the one stored. *)
Lemma of_values_lookup_last (vs ws : list value) (v : value) :
  value_id v ∉ value_id <$> ws →
  of_values (vs ++ v :: ws) !! value_id v = Some (value_rest v).
Proof.
  induction ws as [|w ws IH] using rev_ind; intros Hnot.
  - rewrite of_values_snoc. apply lookup_insert_eq.
  - replace (vs ++ v :: ws ++ [w]) with ((vs ++ v :: ws) ++ [w])
      by (by rewrite <-app_assoc).
    rewrite of_values_snoc. unfold insert_value.
    rewrite fmap_app in Hnot.
    rewrite lookup_insert_ne by set_solver.
    apply IH. set_solver.
Qed.

Lemma of_values_lookup_NoDup (vs : list value) k p :
  NoDup (value_id <$> vs) →
  of_values vs !! k = Some p ↔ Value k p ∈ vs.
Proof.
  intros Hnd. split; [apply of_values_lookup_Some|].
  intros [l1 [l2 ->]]%list_elem_of_split.
  rewrite fmap_app, fmap_cons in Hnd. simpl in Hnd.
  apply NoDup_app in Hnd as (_ & _ & [Hnot _]%NoDup_cons).
  by apply (of_values_lookup_last l1 l2 (Value k p)).
Qed.

Lemma elem_of_values (s : gmap K P) k p :
  Value k p ∈ values s ↔ s !! k = Some p.
Proof.
  unfold values. rewrite list_elem_of_fmap. split.
  - intros ([k' p'] & [= -> ->] & Hin). by apply elem_of_map_to_list in Hin.
  - intros Hs. exists (k, p). split; [done|]. by apply elem_of_map_to_list.
Qed.

Lemma elem_of_values' (s : gmap K P) (v : value) :
  v ∈ values s ↔ s !! value_id v = Some (value_rest v).
Proof. destruct v as [k p]. apply elem_of_values. Qed.

Lemma values_ids (s : gmap K P) : value_id <$> values s = (map_to_list s).*1.
Proof.
  unfold values. rewrite <-list_fmap_compose. by apply list_fmap_ext.
Qed.

Lemma NoDup_values_ids (s : gmap K P) : NoDup (value_id <$> values s).
Proof. rewrite values_ids. apply NoDup_fst_map_to_list. Qed.

Lemma NoDup_values (s : gmap K P) : NoDup (values s).
Proof. eapply NoDup_fmap_1, NoDup_values_ids. Qed.

(** Rebuilding a set from its own elements gives the set back:
    [IdentifiedValueSet(iter(s)) == s]. *)
Lemma of_values_values (s : gmap K P) : of_values (values s) = s.
Proof.
  apply map_eq. intros k. apply option_eq. intros p.
  rewrite of_values_lookup_NoDup by apply NoDup_values_ids.
  apply elem_of_values.
Qed.

Lemma lookup_set_or (l r : gmap K P) k :
  set_or l r !! k = match r !! k with Some p => Some p | None => l !! k end.
Proof.
  unfold set_or. destruct (r !! k) as [p|] eqn:Hr.
  - by apply lookup_union_Some_l.
  - by rewrite lookup_union_r.
Qed.

Lemma lookup_set_and (l r : gmap K P) k :
  set_and l r !! k = match l !! k with Some _ => r !! k | None => None end.
Proof.
  unfold set_and. rewrite lookup_intersection.
  destruct (r !! k), (l !! k); done.
Qed.

Lemma lookup_set_sub (l r : gmap K P) k :
  set_sub l r !! k = match r !! k with Some _ => None | None => l !! k end.
Proof.
  unfold set_sub. rewrite lookup_difference. by destruct (r !! k).
Qed.
End identity_facts.

(** ** Tagged values: basic facts *)

Section state_facts.
Context {V : Type}.

Lemma and_just_of (a b s : StateTransition V) :
  and_ a b = Some s → just_of s = just_of a ∨ just_of s = just_of b.
Proof. destruct a, b; simpl; intros [= <-]; auto. Qed.

Lemma with_tag_just_of (s : StateTransition V) : with_tag (tag s) (just_of s) = s.
Proof. by destruct s. Qed.
End state_facts.

(** ** The lookups of an Effect *)

Section effect_facts.
Context {K : Type} `{Countable K} {P : Type} `{EqDecision P}.

Local Abbreviation value := (IdentifiedValue K P).
Local Abbreviation tagged := (StateTransition (IdentifiedValue K P)).

Lemma first_equal_lookup (i : Identity K P) (s : gmap K P) :
  first_equal i s
  = (λ p, IdentityOf (Value (value_id (Identity.value i)) p))
      <$> s !! value_id (Identity.value i).
Proof.
  unfold first_equal.
  destruct (find _ _) as [[[k p]]|] eqn:Hfind.
  - apply find_some in Hfind as [Hin Heq].
    apply bool_decide_eq_true in Heq. simpl in Heq. subst k.
    apply list_elem_of_In in Hin. unfold identities in Hin.
    apply list_elem_of_fmap in Hin as (v & [= <-] & Hin).
    apply elem_of_values in Hin. by rewrite Hin.
  - destruct (s !! _) as [p|] eqn:Hs; [|done]. exfalso.
    apply elem_of_values in Hs.
    pose proof (find_none _ _ Hfind
                  (IdentityOf (Value (value_id (Identity.value i)) p))) as Hn.
    unfold Identity_eqb in Hn. simpl in Hn.
    rewrite bool_decide_eq_false in Hn. apply Hn; [|done].
    apply list_elem_of_In. unfold identities. by apply list_elem_of_fmap_2.
Qed.

(** Lookup by identity reports the first bucket holding the identifier,
    with the stored value. *)
Lemma by_identity_lookup_state {J} (e : Effect K P J) (i : Identity K P) :
  value_with_state_by_identity e i
  = default (NoValue (Identity.value i))
            (lookup_state e (value_id (Identity.value i))).
Proof.
  unfold value_with_state_by_identity, lookup_state.
  rewrite !first_equal_lookup.
  destruct (new_values e !! _); [done|].
  destruct (translated_values e !! _); [done|].
  destruct (mutated_values e !! _); [done|].
  by destruct (dead_values e !! _).
Qed.

Lemma by_value_just_of {J} (e : Effect K P J) (v : value) :
  just_of (value_with_state_by_value e v) = v.
Proof. unfold value_with_state_by_value. by repeat case_match. Qed.

Lemma by_identity_id {J} (e : Effect K P J) (i : Identity K P) :
  value_id (just_of (value_with_state_by_identity e i))
  = value_id (Identity.value i).
Proof.
  rewrite by_identity_lookup_state. unfold lookup_state.
  by repeat case_match.
Qed.

Lemma lookup_tracked {J} (e : Effect K P J) k :
  tracked e !! k
  = match dead_values e !! k with
    | Some p => Some p
    | None =>
      match mutated_values e !! k with
      | Some p => Some p
      | None =>
        match translated_values e !! k with
        | Some p => Some p
        | None => new_values e !! k
        end
      end
    end.
Proof. unfold tracked. by rewrite !lookup_set_or. Qed.

Lemma tracked_None_lookup_state {J} (e : Effect K P J) k :
  tracked e !! k = None ↔ lookup_state e k = None.
Proof.
  rewrite lookup_tracked. unfold lookup_state.
  destruct (new_values e !! k), (translated_values e !! k),
    (mutated_values e !! k), (dead_values e !! k); done.
Qed.

(** Under the invariant the two lookup methods agree on tracked values. *)
Lemma by_value_lookup_state {J} (e : Effect K P J) k p :
  one_bucket_per_identity e →
  tracked e !! k = Some p →
  lookup_state e k = Some (value_with_state_by_value e (Value k p)).
Proof.
  intros (Hnt & Hnm & Hnd & Htm & Htd & Hmd).
  rewrite lookup_tracked.
  unfold lookup_state, value_with_state_by_value, contains. simpl.
  specialize (Hnt k). specialize (Hnm k). specialize (Hnd k).
  specialize (Htm k). specialize (Htd k). specialize (Hmd k).
  destruct (new_values e !! k), (translated_values e !! k),
    (mutated_values e !! k), (dead_values e !! k);
    simpl in *; try done; intros [= ->];
    repeat (case_bool_decide; try congruence).
Qed.

Lemma elem_of_values_ids (s : gmap K P) k :
  k ∈ value_id <$> values s ↔ is_Some (s !! k).
Proof.
  rewrite list_elem_of_fmap. split.
  - intros ([k' p] & -> & Hin). apply elem_of_values in Hin. by exists p.
  - intros [p Hp]. exists (Value k p). split; [done|]. by apply elem_of_values.
Qed.

Lemma bucket_just_Some (t : Tag) (s : tagged) (v : value) :
  bucket_just t s = Some v ↔ s = with_tag t v ∧ t ≠ E.
Proof.
  destruct t, s; simpl; split; intros Hs;
    solve [ by inversion Hs | by destruct Hs as [[= ->] _] | naive_solver ].
Qed.

Lemma bucket_of_values_with_state {J} (t : Tag) (j : J) (vs : list tagged) :
  bucket t (of_values_with_state j vs) = of_values (omap (bucket_just t) vs).
Proof.
  destruct t; try done. simpl.
  replace (omap (λ _ : tagged, @None value) vs) with (@nil value); [done|].
  by induction vs.
Qed.

Lemma omap_bucket_NoDup (t : Tag) (L : list tagged) :
  NoDup (value_id ∘ just_of <$> L) →
  NoDup (value_id <$> omap (bucket_just t) L).
Proof.
  induction L as [|s L IH]; simpl; [constructor|].
  intros [Hs HL]%NoDup_cons.
  destruct (bucket_just t s) as [v|] eqn:Hb; [|by apply IH].
  apply bucket_just_Some in Hb as [-> _].
  rewrite fmap_cons. apply NoDup_cons. split; [|by apply IH].
  intros (v' & Hid & (s' & Hs' & Hb)%list_elem_of_omap)%list_elem_of_fmap.
  apply bucket_just_Some in Hb as [-> _].
  apply Hs, list_elem_of_fmap. exists (with_tag t v'). split; [|done].
  simpl. destruct t; simpl in *; done.
Qed.

(** A bucket built from tagged values of pairwise distinct identities holds
    exactly the values given with its tag. *)
Lemma bucket_lookup_NoDup {J} (t : Tag) (j : J) (L : list tagged) k p :
  NoDup (value_id ∘ just_of <$> L) →
  bucket t (of_values_with_state j L) !! k = Some p
  ↔ with_tag t (Value k p) ∈ L ∧ t ≠ E.
Proof.
  intros Hnd. rewrite bucket_of_values_with_state.
  rewrite of_values_lookup_NoDup by by apply omap_bucket_NoDup.
  rewrite list_elem_of_omap. split.
  - intros (s & Hin & [-> Ht]%bucket_just_Some). done.
  - intros [Hin Ht]. eexists. split; [done|]. by apply bucket_just_Some.
Qed.

(** ** The combination of two Effects, identity by identity *)

Lemma of_values_iter {J} (e : Effect K P J) : of_values (iter e) = tracked e.
Proof. apply of_values_values. Qed.

Lemma Effect_and_Some {J J'} (l : Effect K P J) (r : Effect K P J') e :
  Effect_and l r = Some e
  ↔ ∃ inter, next_intersection_values l r = Some inter ∧
      e = of_values_with_state (just r)
            (next_left_difference_values l r ++ inter
             ++ next_right_difference_values l r).
Proof.
  unfold Effect_and. destruct (next_intersection_values l r) as [inter|];
    simpl; [|naive_solver].
  split; [intros [= <-]; eauto|]. by intros (? & [= <-] & ->).
Qed.

Lemma elem_of_next_left {J J'} (l : Effect K P J) (r : Effect K P J') s :
  s ∈ next_left_difference_values l r
  ↔ ∃ k p, tracked l !! k = Some p ∧ tracked r !! k = None ∧
           s = value_with_state_by_value l (Value k p).
Proof.
  unfold next_left_difference_values. rewrite !of_values_iter.
  rewrite list_elem_of_fmap. split.
  - intros ([k p] & -> & Hin). apply elem_of_values in Hin.
    rewrite lookup_set_sub in Hin. exists k, p.
    destruct (tracked r !! k); done.
  - intros (k & p & Hl & Hr & ->). exists (Value k p). split; [done|].
    apply elem_of_values. rewrite lookup_set_sub. by rewrite Hr.
Qed.

Lemma elem_of_next_right {J J'} (l : Effect K P J) (r : Effect K P J') s :
  s ∈ next_right_difference_values l r
  ↔ ∃ k q, tracked l !! k = None ∧ tracked r !! k = Some q ∧
           s = value_with_state_by_value r (Value k q).
Proof.
  unfold next_right_difference_values. rewrite !of_values_iter.
  rewrite list_elem_of_fmap. split.
  - intros ([k q] & -> & Hin). apply elem_of_values in Hin.
    rewrite lookup_set_sub in Hin. exists k, q.
    destruct (tracked l !! k); done.
  - intros (k & q & Hl & Hr & ->). exists (Value k q). split; [done|].
    apply elem_of_values. rewrite lookup_set_sub. by rewrite Hl.
Qed.

Lemma elem_of_shared_identities {J J'} (l : Effect K P J) (r : Effect K P J')
    (i : Identity K P) :
  i ∈ identities (set_and (of_values (iter l)) (of_values (iter r)))
  ↔ is_Some (tracked l !! value_id (Identity.value i)) ∧
    tracked r !! value_id (Identity.value i)
    = Some (value_rest (Identity.value i)).
Proof.
  rewrite !of_values_iter. unfold identities. rewrite list_elem_of_fmap.
  destruct i as [[k q]]. simpl. split.
  - intros (v & [= <-] & Hin). apply elem_of_values in Hin.
    rewrite lookup_set_and in Hin.
    destruct (tracked l !! k); [by eauto|done].
  - intros [[p Hl] Hr]. exists (Value k q). split; [done|].
    apply elem_of_values. rewrite lookup_set_and. by rewrite Hl.
Qed.

Lemma elem_of_next_inter {J J'} (l : Effect K P J) (r : Effect K P J')
    inter s :
  next_intersection_values l r = Some inter →
  s ∈ inter
  ↔ ∃ k q, is_Some (tracked l !! k) ∧ tracked r !! k = Some q ∧
      and_ (value_with_state_by_identity l (IdentityOf (Value k q)))
           (value_with_state_by_identity r (IdentityOf (Value k q)))
      = Some s.
Proof.
  unfold next_intersection_values. intros HF%mapM_Some. split.
  - intros [n Hn]%list_elem_of_lookup.
    destruct (Forall2_lookup_r _ _ _ _ _ HF Hn) as (i & Hi & Hand).
    apply list_elem_of_lookup_2, elem_of_shared_identities in Hi as [Hl Hr].
    destruct i as [[k q]]. by exists k, q.
  - intros (k & q & Hl & Hr & Hand).
    assert (IdentityOf (Value k q)
            ∈ identities (set_and (of_values (iter l)) (of_values (iter r))))
      as [n Hn]%list_elem_of_lookup by by apply elem_of_shared_identities.
    destruct (Forall2_lookup_l _ _ _ _ _ HF Hn) as (s' & Hs' & Hand').
    rewrite Hand in Hand'. injection Hand' as <-.
    by eapply list_elem_of_lookup_2.
Qed.

Lemma and_by_identity_id {J J'} (l : Effect K P J) (r : Effect K P J') i s :
  and_ (value_with_state_by_identity l i) (value_with_state_by_identity r i)
  = Some s →
  value_id (just_of s) = value_id (Identity.value i).
Proof.
  intros [->| ->]%and_just_of; apply by_identity_id.
Qed.

(** The identities handed to [of_values_with_state] by [&] are pairwise
    distinct. *)
Lemma next_values_NoDup {J J'} (l : Effect K P J) (r : Effect K P J') inter :
  next_intersection_values l r = Some inter →
  NoDup (value_id ∘ just_of
           <$> (next_left_difference_values l r ++ inter
                ++ next_right_difference_values l r)).
Proof.
  intros Hinter.
  assert (value_id ∘ just_of <$> next_left_difference_values l r
          = value_id <$> values (set_sub (tracked l) (tracked r))) as Hleft.
  { unfold next_left_difference_values. rewrite !of_values_iter.
    rewrite <-list_fmap_compose. apply list_fmap_ext. intros _ v _. simpl.
    by rewrite by_value_just_of. }
  assert (value_id ∘ just_of <$> next_right_difference_values l r
          = value_id <$> values (set_sub (tracked r) (tracked l))) as Hright.
  { unfold next_right_difference_values. rewrite !of_values_iter.
    rewrite <-list_fmap_compose. apply list_fmap_ext. intros _ v _. simpl.
    by rewrite by_value_just_of. }
  assert (value_id ∘ just_of <$> inter
          = value_id <$> values (set_and (tracked l) (tracked r))) as Hmid.
  { pose proof Hinter as HF. unfold next_intersection_values in HF.
    apply mapM_Some in HF. rewrite !of_values_iter in HF.
    unfold identities in HF. apply Forall2_fmap_l in HF.
    apply list_eq_Forall2, Forall2_fmap, Forall2_flip.
    eapply Forall2_impl; [exact HF|]. intros v s Hand. simpl in *.
    by apply and_by_identity_id in Hand. }
  rewrite !fmap_app, Hleft, Hright, Hmid.
  apply NoDup_app. split; [apply NoDup_values_ids|]. split.
  - intros k [p Hk]%elem_of_values_ids [Hin|Hin]%elem_of_app;
      apply elem_of_values_ids in Hin as [q Hq];
      rewrite lookup_set_sub in Hk; [rewrite lookup_set_and in Hq
                                    |rewrite lookup_set_sub in Hq];
      destruct (tracked l !! k), (tracked r !! k); done.
  - apply NoDup_app. split; [apply NoDup_values_ids|].
    split; [|apply NoDup_values_ids].
    intros k [p Hk]%elem_of_values_ids [q Hq]%elem_of_values_ids.
    rewrite lookup_set_and in Hk. rewrite lookup_set_sub in Hq.
    destruct (tracked l !! k), (tracked r !! k); done.
Qed.

(** Membership in the values handed over, through [next_value_at]. *)
Lemma elem_of_next_values {J J'} (l : Effect K P J) (r : Effect K P J')
    inter s :
  next_intersection_values l r = Some inter →
  s ∈ next_left_difference_values l r ++ inter
      ++ next_right_difference_values l r
  ↔ next_value_at l r (value_id (just_of s)) = Some (Some s).
Proof.
  intros Hinter. rewrite !elem_of_app, elem_of_next_left, elem_of_next_right.
  rewrite (elem_of_next_inter l r inter s Hinter).
  unfold next_value_at. split.
  - intros [(k & p & Hl & Hr & ->)|[(k & q & [p Hl] & Hr & Hand)
                                   |(k & q & Hl & Hr & ->)]].
    + rewrite by_value_just_of. simpl. by rewrite Hl, Hr.
    + rewrite (and_by_identity_id _ _ _ _ Hand). simpl.
      by rewrite Hl, Hr, Hand.
    + rewrite by_value_just_of. simpl. by rewrite Hl, Hr.
  - destruct (tracked l !! _) as [p|] eqn:Hl,
      (tracked r !! _) as [q|] eqn:Hr; try done.
    + intros Hand. right; left. do 2 eexists. split; [by eauto|]. split; [done|].
      by destruct (and_ _ _) as [s'|]; simplify_eq/=.
    + intros [= <-]. left. eauto.
    + intros [= <-]. right; right. eauto.
Qed.

Lemma next_value_at_id {J J'} (l : Effect K P J) (r : Effect K P J') k s :
  next_value_at l r k = Some (Some s) → value_id (just_of s) = k.
Proof.
  unfold next_value_at.
  destruct (tracked l !! k) as [p|], (tracked r !! k) as [q|]; try done.
  - destruct (and_ _ _) as [s'|] eqn:Hand; [|done]. intros [= <-].
    by apply and_by_identity_id in Hand.
  - intros [= <-]. by rewrite by_value_just_of.
  - intros [= <-]. by rewrite by_value_just_of.
Qed.

(** The buckets of a successful combination. *)
Lemma Effect_and_bucket {J J'} (l : Effect K P J) (r : Effect K P J') e t k p :
  Effect_and l r = Some e →
  bucket t e !! k = Some p
  ↔ next_value_at l r k = Some (Some (with_tag t (Value k p))) ∧ t ≠ E.
Proof.
  intros (inter & Hinter & ->)%Effect_and_Some.
  rewrite bucket_lookup_NoDup by by apply next_values_NoDup.
  rewrite (elem_of_next_values l r inter _ Hinter).
  by destruct t.
Qed.

Lemma Effect_and_just {J J'} (l : Effect K P J) (r : Effect K P J') e :
  Effect_and l r = Some e → just e = just r.
Proof. by intros (inter & _ & ->)%Effect_and_Some. Qed.

(** The combination raises exactly when some identifier's pairing does. *)
Lemma Effect_and_None {J J'} (l : Effect K P J) (r : Effect K P J') :
  Effect_and l r = None ↔ ∃ k, next_value_at l r k = None.
Proof.
  unfold Effect_and.
  destruct (next_intersection_values l r) as [inter|] eqn:Hinter; simpl.
  - split; [done|]. intros [k Hk]. exfalso. unfold next_value_at in Hk.
    destruct (tracked l !! k) as [p|] eqn:Hl,
      (tracked r !! k) as [q|] eqn:Hr; try done.
    destruct (and_ _ _) as [s|] eqn:Hand; [done|].
    assert (is_Some (next_intersection_values l r)) as HF by eauto.
    unfold next_intersection_values in HF.
    apply mapM_is_Some in HF. rewrite Forall_forall in HF.
    destruct (HF (IdentityOf (Value k q))) as [s Hs].
    + apply elem_of_shared_identities. simpl. eauto.
    + simpl in Hs. congruence.
  - split; [|done]. intros _.
    unfold next_intersection_values in Hinter.
    apply mapM_None, Exists_exists in Hinter as ([[k q]] & Hin & Hand).
    apply elem_of_shared_identities in Hin as [[p Hl] Hr]. simpl in *.
    exists k. unfold next_value_at. by rewrite Hl, Hr, Hand.
Qed.

Lemma Effect_and_bucket_lookup {J J'} (l : Effect K P J) (r : Effect K P J')
    e t k :
  Effect_and l r = Some e →
  bucket t e !! k
  = match next_value_at l r k with
    | Some (Some s) => rest_if t s
    | _ => None
    end.
Proof.
  intros Hand. apply option_eq. intros p.
  rewrite (Effect_and_bucket l r e t k p Hand).
  destruct (next_value_at l r k) as [[s|]|] eqn:Hnext;
    [|by split; [intros [[=] _]|]..].
  apply next_value_at_id in Hnext. unfold rest_if.
  destruct t, s as [[k' p']|[k' p']|[k' p']|[k' p']|[k' p']];
    simpl in *; subst; naive_solver.
Qed.

(** The state a successful combination holds for an identifier. *)
Lemma lookup_state_Effect_and {J J'} (l : Effect K P J) (r : Effect K P J')
    e k :
  Effect_and l r = Some e →
  lookup_state e k
  = match next_value_at l r k with
    | Some (Some s) => stored s
    | _ => None
    end.
Proof.
  intros Hand. unfold lookup_state.
  change (new_values e) with (bucket N e).
  change (translated_values e) with (bucket T e).
  change (mutated_values e) with (bucket M e).
  change (dead_values e) with (bucket D e).
  rewrite !(Effect_and_bucket_lookup l r e _ k Hand).
  destruct (next_value_at l r k) as [[s|]|] eqn:Hnext; try done.
  apply next_value_at_id in Hnext.
  destruct s as [[k' p']|[k' p']|[k' p']|[k' p']|[k' p']];
    simpl in *; by subst.
Qed.

(** Combination re-establishes the invariant, whatever the operands. *)
Lemma Effect_and_one_bucket {J J'} (l : Effect K P J) (r : Effect K P J') e :
  Effect_and l r = Some e → one_bucket_per_identity e.
Proof.
  intros Hand. unfold one_bucket_per_identity.
  change (new_values e) with (bucket N e).
  change (translated_values e) with (bucket T e).
  change (mutated_values e) with (bucket M e).
  change (dead_values e) with (bucket D e).
  repeat split; apply map_disjoint_spec; intros k p q;
    rewrite !(Effect_and_bucket_lookup l r e _ k Hand);
    destruct (next_value_at l r k) as [[[]|]|]; done.
Qed.

Lemma lookup_state_stored {J} (e : Effect K P J) k s :
  lookup_state e k = Some s → stored s = Some s.
Proof.
  unfold lookup_state. repeat case_match; try done; by intros [= <-].
Qed.

(** Under the invariant [&] works on the states of the operands. *)
Lemma next_value_at_states {J J'} (l : Effect K P J) (r : Effect K P J') k :
  one_bucket_per_identity l → one_bucket_per_identity r →
  next_value_at l r k
  = match lookup_state l k, lookup_state r k with
    | Some a, Some b => Some <$> and_ a b
    | Some a, None => Some (Some a)
    | None, y => Some y
    end.
Proof.
  intros Hl Hr. unfold next_value_at.
  destruct (tracked l !! k) as [p|] eqn:Hlk, (tracked r !! k) as [q|] eqn:Hrk.
  - rewrite !by_identity_lookup_state. simpl.
    by rewrite (by_value_lookup_state l k p Hl Hlk),
      (by_value_lookup_state r k q Hr Hrk).
  - apply tracked_None_lookup_state in Hrk.
    by rewrite (by_value_lookup_state l k p Hl Hlk), Hrk.
  - apply tracked_None_lookup_state in Hlk.
    by rewrite (by_value_lookup_state r k q Hr Hrk), Hlk.
  - apply tracked_None_lookup_state in Hlk, Hrk. by rewrite Hlk, Hrk.
Qed.

Lemma Effect_and_states {J J'} (l : Effect K P J) (r : Effect K P J') e k :
  one_bucket_per_identity l → one_bucket_per_identity r →
  Effect_and l r = Some e →
  and_states (lookup_state l k) (lookup_state r k) = Some (lookup_state e k).
Proof.
  intros Hl Hr Hand. rewrite (lookup_state_Effect_and l r e k Hand).
  assert (next_value_at l r k ≠ None) as Hnext.
  { intros Hn. assert (Effect_and l r = None) by (apply Effect_and_None; eauto).
    congruence. }
  rewrite next_value_at_states in * by done. unfold and_states.
  destruct (lookup_state l k) as [a|] eqn:Ha,
    (lookup_state r k) as [b|] eqn:Hb; simpl.
  - by destruct (and_ a b).
  - by rewrite (lookup_state_stored l k a Ha).
  - by rewrite (lookup_state_stored r k b Hb).
  - done.
Qed.

(** Two Effects under the invariant are equal when they hold the same
    primary value and the same state for every identifier. *)
Lemma Effect_ext {J} (e1 e2 : Effect K P J) :
  one_bucket_per_identity e1 → one_bucket_per_identity e2 →
  just e1 = just e2 →
  (∀ k, lookup_state e1 k = lookup_state e2 k) →
  e1 = e2.
Proof.
  intros (Hnt1 & Hnm1 & Hnd1 & Htm1 & Htd1 & Hmd1)
         (Hnt2 & Hnm2 & Hnd2 & Htm2 & Htd2 & Hmd2) Hj Hs.
  destruct e1 as [j1 n1 t1 m1 d1], e2 as [j2 n2 t2 m2 d2]. simpl in *.
  subst j2.
  assert (∀ k, n1 !! k = n2 !! k ∧ t1 !! k = t2 !! k
               ∧ m1 !! k = m2 !! k ∧ d1 !! k = d2 !! k) as Hk.
  { intros k. specialize (Hs k). unfold lookup_state in Hs. simpl in Hs.
    specialize (Hnt1 k). specialize (Hnm1 k). specialize (Hnd1 k).
    specialize (Htm1 k). specialize (Htd1 k). specialize (Hmd1 k).
    specialize (Hnt2 k). specialize (Hnm2 k). specialize (Hnd2 k).
    specialize (Htm2 k). specialize (Htd2 k). specialize (Hmd2 k).
    destruct (n1 !! k), (t1 !! k), (m1 !! k), (d1 !! k); simpl in *;
      try done;
      destruct (n2 !! k), (t2 !! k), (m2 !! k), (d2 !! k); simpl in *;
      try done; by simplify_eq. }
  f_equal; apply map_eq; intros k; apply Hk.
Qed.

(** ** The algebra of states *)

(** On three states that are not neutral-tagged, the two groupings agree as
    soon as all four steps are defined and a pair netting to neutral is not
    followed, or preceded, by a further claim on the identifier. *)
Lemma and_states_assoc (x y z u w u' w' : option tagged) :
  (∀ s, x = Some s → stored s = Some s) →
  (∀ s, y = Some s → stored s = Some s) →
  (∀ s, z = Some s → stored s = Some s) →
  and_states x y = Some u → and_states u z = Some w →
  and_states y z = Some u' → and_states x u' = Some w' →
  (tag <$> x = Some N ∨ tag <$> x = Some T → tag <$> y = Some D → z = None) →
  (tag <$> y = Some N ∨ tag <$> y = Some T → tag <$> z = Some D → x = None) →
  w = w'.
Proof.
  intros Hx Hy Hz Hxy Huz Hyz Hxu H1 H2.
  destruct x as [[]|], y as [[]|], z as [[]|]; simpl in *;
    simplify_eq/=; try done;
    solve [ by specialize (Hx _ eq_refl)
          | by specialize (Hy _ eq_refl)
          | by specialize (Hz _ eq_refl)
          | by discriminate H1; eauto
          | by discriminate H2; eauto ].
Qed.

Lemma lookup_state_tag_new {J} (e : Effect K P J) k :
  tag <$> lookup_state e k = Some N ↔ is_Some (new_values e !! k).
Proof.
  unfold lookup_state. destruct (new_values e !! k); simpl.
  - split; eauto.
  - split; [|by intros [? [=]]]. by repeat case_match.
Qed.

Lemma lookup_state_tag_translated {J} (e : Effect K P J) k :
  tag <$> lookup_state e k = Some T → is_Some (translated_values e !! k).
Proof. unfold lookup_state. by repeat case_match. Qed.

Lemma lookup_state_tag_dead {J} (e : Effect K P J) k :
  tag <$> lookup_state e k = Some D → is_Some (dead_values e !! k).
Proof. unfold lookup_state. by repeat case_match. Qed.
End effect_facts.

(** * The claims *)

Section claims.
Context {K : Type} `{Countable K} {P : Type} `{EqDecision P}.

Local Abbreviation value := (IdentifiedValue K P).
Local Abbreviation tagged := (StateTransition (IdentifiedValue K P)).

(** [map] applies the function to the primary value and keeps three of the
    four buckets; the translated bucket of the result is always empty. *)
Lemma map_frame {J R} (e : Effect K P J) (f : J → R) :
  just (map e f) = f (just e) ∧
  new_values (map e f) = new_values e ∧
  translated_values (map e f) = ∅ ∧
  mutated_values (map e f) = mutated_values e ∧
  dead_values (map e f) = dead_values e.
Proof. done. Qed.
End claims.

(** C1: [e.map(f)] is to change the primary value only and to leave the four
    buckets as they are.  On an Effect whose translated bucket holds a value,
    [map] returns an Effect whose translated bucket is empty: the value is
    lost, while the three other buckets are kept. *)
Theorem map_loses_translated_values :
  translated_values imported = {[1 := 10]} ∧
  translated_values (map imported S) = ∅ ∧
  translated_values (map imported S) ≠ translated_values imported ∧
  just (map imported S) = 401 ∧
  new_values (map imported S) = new_values imported ∧
  mutated_values (map imported S) = mutated_values imported ∧
  dead_values (map imported S) = dead_values imported.
Proof. vm_compute. repeat split; try done. Qed.

(** ** Claims on the combination of tagged values *)

Section tag_claims.
Context {V : Type}.

(** C2: combining two tagged values raises InvalidStateTransition exactly
    when the pair (left tag, right tag) is one of the seven listed pairs
    (New,Translated), (Translated,New), (Mutated,New), (Mutated,Translated),
    (Dead,New), (Dead,Translated), (Dead,Mutated); every other pair has a
    result.  The rule is directional: (Mutated,New), (Mutated,Translated),
    (Dead,New), (Dead,Translated) and (Dead,Mutated) raise while their swaps
    do not.  The rule does not look at the wrapped values, so it holds in
    particular for values of one identity. *)
Theorem and_raises_exactly_on_listed_pairs (left right : StateTransition V) :
  (and_ left right = None ↔ listed_invalid (tag left) (tag right) = true) ∧
  (listed_invalid (tag left) (tag right) = false ↔ is_Some (and_ left right)) ∧
  (∀ a b : V,
     and_ (MutatedValue a) (NewValue b) = None ∧
     and_ (NewValue a) (MutatedValue b) = Some (NewValue b) ∧
     and_ (MutatedValue a) (TranslatedValue b) = None ∧
     and_ (TranslatedValue a) (MutatedValue b) = Some (TranslatedValue b) ∧
     and_ (DeadValue a) (NewValue b) = None ∧
     and_ (NewValue a) (DeadValue b) = Some (NoValue b) ∧
     and_ (DeadValue a) (TranslatedValue b) = None ∧
     and_ (TranslatedValue a) (DeadValue b) = Some (NoValue b) ∧
     and_ (DeadValue a) (MutatedValue b) = None ∧
     and_ (MutatedValue a) (DeadValue b) = Some (DeadValue b) ∧
     and_ (NewValue a) (TranslatedValue b) = None ∧
     and_ (TranslatedValue a) (NewValue b) = None).
Proof.
  split; [|split].
  - destruct left, right; simpl; split; congruence.
  - destruct left, right; simpl; split; intros Hs;
      solve [ eauto | discriminate | by destruct Hs ].
  - intros a b. repeat split.
Qed.

(** C4, as amended: the neutral tag on the left lets the right operand
    through whatever its tag; the neutral tag on the right lets the left
    operand through when that operand is not neutral itself, or when both
    wrap the same value.  Of two neutral operands the right one is kept. *)
Theorem and_neutral (t : Tag) (v v2 : V) :
  and_ (NoValue v) (with_tag t v2) = Some (with_tag t v2) ∧
  (t ≠ E ∨ v = v2 → and_ (with_tag t v) (NoValue v2) = Some (with_tag t v)).
Proof.
  split; [by destruct t|].
  intros [Ht| ->]; by destruct t.
Qed.

(** No combination rule at all can return the left operand for every
    [t(v) & existing(v2)] and the right operand for every
    [existing(v) & t(v2)]: at two neutral operands the two requirements
    ask for both values. *)
Remark neutral_both_sides_impossible (f : StateTransition V → StateTransition V
                                          → option (StateTransition V)) (v v2 : V) :
  v ≠ v2 →
  ¬ (∀ t, f (with_tag t v) (NoValue v2) = Some (with_tag t v) ∧
          f (NoValue v) (with_tag t v2) = Some (with_tag t v2)).
Proof.
  intros Hne Hf. destruct (Hf E) as [Hl Hr]. simpl in *. congruence.
Qed.
End tag_claims.

(** Witness of C4 as amended, at a non-neutral tag and at two equal neutral
    operands. *)
Lemma and_neutral_witness :
  and_ (MutatedValue x_v1) (NoValue x_v2) = Some (MutatedValue x_v1) ∧
  and_ (NoValue x_v1) (NoValue x_v1) = Some (NoValue x_v1).
Proof.
  split.
  - apply (and_neutral M x_v1 x_v2). left. discriminate.
  - apply (and_neutral E x_v1 x_v1). right. reflexivity.
Defined.

(** C4 as stated fails: with two versions of one identity,
    [existing(x_v1) & existing(x_v2)] is [existing(x_v2)], not the left
    operand [existing(x_v1)]. *)
Lemma and_neutral_left_not_retained :
  value_id x_v1 = value_id x_v2 ∧
  and_ (with_tag E x_v1) (NoValue x_v2) = Some (NoValue x_v2) ∧
  and_ (with_tag E x_v1) (NoValue x_v2) ≠ Some (with_tag E x_v1).
Proof. repeat split. discriminate. Qed.

(** ** Claims on the combination of Effects *)

Section effect_claims.
Context {K : Type} `{Countable K} {P : Type} `{EqDecision P}.

Local Abbreviation value := (IdentifiedValue K P).
Local Abbreviation tagged := (StateTransition (IdentifiedValue K P)).

(** For an identity both operands track, [&] combines the two tagged values
    the lookups by identity report. *)
Lemma next_value_at_shared {J J'} (l : Effect K P J) (r : Effect K P J')
    (i : Identity K P) :
  shared l r i →
  next_value_at l r (value_id (Identity.value i))
  = Some <$> and_ (value_with_state_by_identity l i)
                  (value_with_state_by_identity r i).
Proof.
  intros [[p Hl] [q Hr]]. unfold next_value_at. rewrite Hl, Hr.
  rewrite !by_identity_lookup_state. simpl.
  destruct (lookup_state l _) eqn:Hsl;
    [|apply tracked_None_lookup_state in Hsl; congruence].
  destruct (lookup_state r _) eqn:Hsr;
    [|apply tracked_None_lookup_state in Hsr; congruence].
  done.
Qed.

Lemma by_identity_tracked {J} (e : Effect K P J) (i : Identity K P) s :
  value_with_state_by_identity e i = s → stored s = Some s →
  lookup_state e (value_id (Identity.value i)) = Some s ∧
  is_Some (tracked e !! value_id (Identity.value i)).
Proof.
  rewrite by_identity_lookup_state. intros <- Hs.
  destruct (lookup_state e _) as [s|] eqn:Hls; [|done]. split; [done|].
  apply not_eq_None_Some. rewrite tracked_None_lookup_state. congruence.
Qed.

(** C3: with a Dead right-hand side, [new(a) & dead(b)] and
    [translated(a) & dead(b)] are [existing(b)], [mutated(a) & dead(b)] and
    [dead(a) & dead(b)] are [dead(b)].  At the level of Effects: when the
    left Effect reports an identity as New and the right one reports it as
    Dead, a successful [left & right] has that identity in none of its four
    buckets, and reports it as NoValue. *)
Theorem and_dead_right (a b : value) :
  (and_ (NewValue a) (DeadValue b) = Some (NoValue b) ∧
   and_ (TranslatedValue a) (DeadValue b) = Some (NoValue b) ∧
   and_ (MutatedValue a) (DeadValue b) = Some (DeadValue b) ∧
   and_ (DeadValue a) (DeadValue b) = Some (DeadValue b)) ∧
  ∀ J J' (left : Effect K P J) (right : Effect K P J') e (i : Identity K P),
    value_with_state_by_identity left i = NewValue a →
    value_with_state_by_identity right i = DeadValue b →
    Effect_and left right = Some e →
    new_values e !! value_id (Identity.value i) = None ∧
    translated_values e !! value_id (Identity.value i) = None ∧
    mutated_values e !! value_id (Identity.value i) = None ∧
    dead_values e !! value_id (Identity.value i) = None ∧
    value_with_state_by_identity e i = NoValue (Identity.value i).
Proof.
  split; [done|]. intros J J' l r e i Hl Hr Hand.
  destruct (by_identity_tracked l i _ Hl eq_refl) as [Hsl Htl].
  destruct (by_identity_tracked r i _ Hr eq_refl) as [Hsr Htr].
  pose proof (next_value_at_shared l r i (conj Htl Htr)) as Hnext.
  rewrite Hl, Hr in Hnext. simpl in Hnext.
  pose proof (λ t, Effect_and_bucket_lookup l r e t
                     (value_id (Identity.value i)) Hand) as Hb.
  rewrite Hnext in Hb.
  rewrite by_identity_lookup_state,
    (lookup_state_Effect_and l r e _ Hand), Hnext.
  repeat split; [apply (Hb N)|apply (Hb T)|apply (Hb M)|apply (Hb D)].
Qed.

(** C6: [left & right] is all or nothing.  It raises exactly when some
    identity tracked by both operands has an invalid pairing of the tags the
    two lookups by identity report; whenever no such identity exists it
    returns an Effect, and that Effect keeps every identity in at most one
    bucket.  The operands are values of a frozen dataclass: the function
    builds its result from them and has nothing to restore on failure. *)
Theorem Effect_and_all_or_nothing {J J'} (left : Effect K P J)
    (right : Effect K P J') :
  (Effect_and left right = None
   ↔ ∃ i, shared left right i ∧
          and_ (value_with_state_by_identity left i)
               (value_with_state_by_identity right i) = None) ∧
  ((∀ i, shared left right i →
         is_Some (and_ (value_with_state_by_identity left i)
                       (value_with_state_by_identity right i)))
   ↔ ∃ e, Effect_and left right = Some e ∧ one_bucket_per_identity e).
Proof.
  assert (Effect_and left right = None
          ↔ ∃ i, shared left right i ∧
              and_ (value_with_state_by_identity left i)
                   (value_with_state_by_identity right i) = None) as Hnone.
  { rewrite Effect_and_None. split.
    - intros [k Hk]. pose proof Hk as Hk'. unfold next_value_at in Hk'.
      destruct (tracked left !! k) as [p|] eqn:Hl,
        (tracked right !! k) as [q|] eqn:Hr; try done.
      exists (IdentityOf (Value k q)).
      assert (shared left right (IdentityOf (Value k q))) as Hsh
        by (split; simpl; eauto).
      split; [done|]. pose proof (next_value_at_shared _ _ _ Hsh) as Hn.
      simpl in Hn. rewrite Hn in Hk. by destruct (and_ _ _).
    - intros (i & Hsh & Hand). exists (value_id (Identity.value i)).
      by rewrite (next_value_at_shared _ _ _ Hsh), Hand. }
  split; [done|]. split.
  - intros Hall. destruct (Effect_and left right) as [e|] eqn:Hand.
    + exists e. split; [done|]. by eapply Effect_and_one_bucket.
    + destruct (proj1 Hnone eq_refl) as (i & Hsh & Hi).
      destruct (Hall i Hsh) as [s Hs]. congruence.
  - intros (e & Hand & _) i Hsh.
    destruct (and_ _ _) eqn:Hi; [by eauto|].
    assert (Effect_and left right = None) by (apply Hnone; eauto).
    congruence.
Qed.

(** C7: the primary value of a successful [left & right] is the primary
    value of [right], whatever the buckets of the operands. *)
Theorem Effect_and_takes_right_just {J J'} (left : Effect K P J)
    (right : Effect K P J') (e : Effect K P J') :
  Effect_and left right = Some e → just e = just right.
Proof. apply Effect_and_just. Qed.

(** C8: [e.and_then(f)] is [e & f(e.just)]: the same Effect when the
    combination succeeds, the same failure when it raises. *)
Theorem and_then_is_and {J J'} (e : Effect K P J) (f : J → Effect K P J') :
  and_then e f = Effect_and e (f (just e)) ∧
  and_then e f = and_then_spec e f ∧
  (and_then e f = None ↔ Effect_and e (f (just e)) = None) ∧
  (∀ e', and_then e f = Some e' ↔ Effect_and e (f (just e)) = Some e').
Proof. unfold and_then, and_then_spec. by repeat split. Qed.
End effect_claims.

(** ** Claims on construction, iteration and associativity *)

Section aggregate_claims.
Context {K : Type} `{Countable K} {P : Type} `{EqDecision P}.

Local Abbreviation value := (IdentifiedValue K P).
Local Abbreviation tagged := (StateTransition (IdentifiedValue K P)).

Lemma omap_bucket_filter (t : Tag) (vs : list tagged) :
  omap (bucket_just t) (List.filter has_bucket vs) = omap (bucket_just t) vs.
Proof.
  induction vs as [|s vs IH]; [done|].
  destruct s; csimpl; rewrite ?IH; try done. by destruct t.
Qed.

Lemma omap_bucket_cons (t : Tag) (s : tagged) (vs : list tagged) :
  has_bucket s = true → tag s = t →
  omap (bucket_just t) (s :: vs) = just_of s :: omap (bucket_just t) vs.
Proof. intros Hs <-. by destruct s. Qed.

(** C9: [Effect.of_values_with_state] stores the primary value as given;
    NoValue inputs reach no bucket (dropping them from the input gives the
    same Effect); whatever a bucket stores was given with the tag of that
    bucket; and every input with one of the four other tags has its identity
    in the bucket of its tag, which stores the input itself unless a later
    input of the same tag and identity replaced it. *)
Theorem of_values_with_state_classifies {J} (j : J) (vs : list tagged) :
  just (of_values_with_state j vs) = j ∧
  of_values_with_state j vs = of_values_with_state j (List.filter has_bucket vs) ∧
  (∀ t k p, bucket t (of_values_with_state j vs) !! k = Some p →
            t ≠ E ∧ with_tag t (Value k p) ∈ vs) ∧
  (∀ s, s ∈ vs → has_bucket s = true →
        is_Some (bucket (tag s) (of_values_with_state j vs)
                   !! value_id (just_of s))) ∧
  (∀ vs1 s vs2, vs = vs1 ++ s :: vs2 → has_bucket s = true →
     (∀ s', s' ∈ vs2 → tag s' = tag s →
            value_id (just_of s') ≠ value_id (just_of s)) →
     bucket (tag s) (of_values_with_state j vs) !! value_id (just_of s)
     = Some (value_rest (just_of s))).
Proof.
  split; [done|]. split; [|split; [|split]].
  - unfold of_values_with_state.
    by rewrite <-(omap_bucket_filter N), <-(omap_bucket_filter T),
      <-(omap_bucket_filter M), <-(omap_bucket_filter D).
  - intros t k p. rewrite bucket_of_values_with_state.
    intros (s & Hin & [-> Ht]%bucket_just_Some)%of_values_lookup_Some
             %list_elem_of_omap.
    done.
  - intros s Hin Hs. rewrite bucket_of_values_with_state.
    apply not_eq_None_Some. rewrite of_values_lookup_None.
    intros Hnot. apply Hnot, list_elem_of_fmap. exists (just_of s).
    split; [done|]. apply list_elem_of_omap. exists s. split; [done|].
    apply bucket_just_Some. rewrite with_tag_just_of. by destruct s.
  - intros vs1 s vs2 -> Hs Hlater. rewrite bucket_of_values_with_state.
    rewrite omap_app, (omap_bucket_cons _ s vs2 Hs eq_refl).
    apply of_values_lookup_last.
    intros (v & Hid & (s' & Hin & [-> Ht]%bucket_just_Some)%list_elem_of_omap)
             %list_elem_of_fmap.
    apply (Hlater _ Hin); [|by destruct (tag s)].
    by destruct (tag s).
Qed.

(** C10: iterating an Effect yields the elements of
    [new | translated | mutated | dead], the union keyed by identity in
    which a later bucket replaces the value of an earlier one.  No value is
    yielded twice and no identity is yielded twice; every yielded value is
    contained in some bucket; every identity of a bucket is yielded.  Under
    the invariant the yielded values are exactly the values the buckets
    contain.  The primary value plays no part: an Effect with the same
    buckets and any other primary value yields the same. *)
Theorem iter_yields_tracked_values {J} (e : Effect K P J) :
  iter e = values (set_or (set_or (set_or (new_values e) (translated_values e))
                                  (mutated_values e))
                          (dead_values e)) ∧
  (∀ k p, Value k p ∈ iter e
          ↔ match dead_values e !! k with
            | Some q => Some q
            | None =>
              match mutated_values e !! k with
              | Some q => Some q
              | None =>
                match translated_values e !! k with
                | Some q => Some q
                | None => new_values e !! k
                end
              end
            end = Some p) ∧
  NoDup (iter e) ∧
  NoDup (value_id <$> iter e) ∧
  (∀ v, v ∈ iter e →
        contains (new_values e) v = true ∨
        contains (translated_values e) v = true ∨
        contains (mutated_values e) v = true ∨
        contains (dead_values e) v = true) ∧
  (∀ k, k ∈ value_id <$> iter e
        ↔ is_Some (new_values e !! k) ∨ is_Some (translated_values e !! k) ∨
          is_Some (mutated_values e !! k) ∨ is_Some (dead_values e !! k)) ∧
  (one_bucket_per_identity e →
   ∀ v, v ∈ iter e
        ↔ contains (new_values e) v = true ∨
          contains (translated_values e) v = true ∨
          contains (mutated_values e) v = true ∨
          contains (dead_values e) v = true) ∧
  (∀ J' (j' : J'),
     iter (MkEffect j' (new_values e) (translated_values e)
             (mutated_values e) (dead_values e)) = iter e).
Proof.
  assert (∀ v : value, v ∈ iter e →
            contains (new_values e) v = true ∨
            contains (translated_values e) v = true ∨
            contains (mutated_values e) v = true ∨
            contains (dead_values e) v = true) as Hsound.
  { intros [k p]. unfold iter. rewrite elem_of_values, lookup_tracked.
    unfold contains. simpl. rewrite !bool_decide_eq_true.
    destruct (dead_values e !! k), (mutated_values e !! k),
      (translated_values e !! k), (new_values e !! k); naive_solver. }
  split; [done|]. split; [|split; [|split; [|split; [|split; [|split]]]]].
  - intros k p. unfold iter. by rewrite elem_of_values, lookup_tracked.
  - apply NoDup_values.
  - apply NoDup_values_ids.
  - done.
  - intros k. unfold iter. rewrite elem_of_values_ids, lookup_tracked.
    destruct (dead_values e !! k), (mutated_values e !! k),
      (translated_values e !! k), (new_values e !! k);
      split; try (by eauto 6); intros [Hs|[Hs|[Hs|Hs]]]; by destruct Hs.
  - intros (Hnt & Hnm & Hnd & Htm & Htd & Hmd) [k p].
    split; [apply Hsound|].
    unfold iter. rewrite elem_of_values, lookup_tracked.
    unfold contains. simpl. rewrite !bool_decide_eq_true.
    specialize (Hnt k). specialize (Hnm k). specialize (Hnd k).
    specialize (Htm k). specialize (Htd k). specialize (Hmd k).
    destruct (dead_values e !! k), (mutated_values e !! k),
      (translated_values e !! k), (new_values e !! k);
      simpl in *; naive_solver.
  - done.
Qed.

(** C5, as amended: for Effects [a], [b], [c] that keep every identity in at
    most one bucket, and for which no step of either grouping raises,
    [(a & b) & c] equals [a & (b & c)] provided an identity that [a & b]
    nets to the neutral tag (New or Translated in [a], Dead in [b]) is not
    tracked by [c], and an identity that [b & c] nets to the neutral tag is
    not tracked by [a]. *)
Theorem Effect_and_assoc {J1 J2 J3} (a : Effect K P J1) (b : Effect K P J2)
    (c : Effect K P J3) (ab : Effect K P J2) (bc abc abc' : Effect K P J3) :
  one_bucket_per_identity a →
  one_bucket_per_identity b →
  one_bucket_per_identity c →
  Effect_and a b = Some ab → Effect_and ab c = Some abc →
  Effect_and b c = Some bc → Effect_and a bc = Some abc' →
  (∀ k, nets_to_neutral a b k → tracked c !! k = None) →
  (∀ k, nets_to_neutral b c k → tracked a !! k = None) →
  abc = abc'.
Proof.
  intros Ha Hb Hc Hab Habc Hbc Habc' Hnet1 Hnet2.
  pose proof (Effect_and_one_bucket _ _ _ Hab) as Hwab.
  pose proof (Effect_and_one_bucket _ _ _ Hbc) as Hwbc.
  apply Effect_ext.
  - by eapply Effect_and_one_bucket.
  - by eapply Effect_and_one_bucket.
  - by rewrite (Effect_and_just _ _ _ Habc), (Effect_and_just _ _ _ Habc'),
      (Effect_and_just _ _ _ Hbc).
  - intros k.
    apply (and_states_assoc (lookup_state a k) (lookup_state b k)
             (lookup_state c k) (lookup_state ab k) _ (lookup_state bc k)).
    + apply lookup_state_stored.
    + apply lookup_state_stored.
    + apply lookup_state_stored.
    + by apply Effect_and_states.
    + by apply Effect_and_states.
    + by apply Effect_and_states.
    + by apply Effect_and_states.
    + intros Hx Hy%lookup_state_tag_dead.
      apply tracked_None_lookup_state, Hnet1.
      split; [|done].
      destruct Hx as [Hx%lookup_state_tag_new|Hx%lookup_state_tag_translated];
        auto.
    + intros Hy Hz%lookup_state_tag_dead.
      apply tracked_None_lookup_state, Hnet2.
      split; [|done].
      destruct Hy as [Hy%lookup_state_tag_new|Hy%lookup_state_tag_translated];
        auto.
Qed.
End aggregate_claims.


(** ** The claims on the sample values *)

Lemma one_bucket_created : one_bucket_per_identity created.
Proof. repeat split; apply (bool_decide_unpack _); vm_compute; exact I. Defined.

Lemma one_bucket_deleted : one_bucket_per_identity deleted.
Proof. repeat split; apply (bool_decide_unpack _); vm_compute; exact I. Defined.

Lemma one_bucket_deleted_again : one_bucket_per_identity deleted_again.
Proof. repeat split; apply (bool_decide_unpack _); vm_compute; exact I. Defined.

Lemma one_bucket_other_created : one_bucket_per_identity other_created.
Proof. repeat split; apply (bool_decide_unpack _); vm_compute; exact I. Defined.

Lemma one_bucket_imported : one_bucket_per_identity imported.
Proof. repeat split; apply (bool_decide_unpack _); vm_compute; exact I. Defined.

(** Witness of C3: a value created by one Effect and deleted by the next
    is in no bucket of the combination. *)
Lemma and_dead_right_witness :
  Effect_and created deleted = Some (MkEffect 200 ∅ ∅ ∅ ∅) ∧
  new_values (MkEffect (K:=nat) (P:=nat) 200 ∅ ∅ ∅ ∅) !! value_id x_v3 = None ∧
  translated_values (MkEffect (K:=nat) (P:=nat) 200 ∅ ∅ ∅ ∅) !! value_id x_v3 = None ∧
  mutated_values (MkEffect (K:=nat) (P:=nat) 200 ∅ ∅ ∅ ∅) !! value_id x_v3 = None ∧
  dead_values (MkEffect (K:=nat) (P:=nat) 200 ∅ ∅ ∅ ∅) !! value_id x_v3 = None ∧
  value_with_state_by_identity (MkEffect (K:=nat) (P:=nat) 200 ∅ ∅ ∅ ∅)
    (IdentityOf x_v3) = NoValue x_v3.
Proof.
  split; [vm_compute; reflexivity|].
  apply (proj2 (and_dead_right x_v1 x_v2) nat nat created deleted
           (MkEffect 200 ∅ ∅ ∅ ∅) (IdentityOf x_v3));
    vm_compute; reflexivity.
Defined.

(** C5 as stated fails: [created], [deleted] and [deleted_again] keep the
    invariant and no step of either grouping raises, yet
    [(created & deleted) & deleted_again] has the value in its dead bucket
    while [created & (deleted & deleted_again)] has all buckets empty. *)
Lemma Effect_and_not_assoc :
  Effect_and created deleted = Some (MkEffect 200 ∅ ∅ ∅ ∅) ∧
  Effect_and (MkEffect (K:=nat) (P:=nat) 200 ∅ ∅ ∅ ∅) deleted_again
  = Some (MkEffect 300 ∅ ∅ ∅ {[1 := 30]}) ∧
  Effect_and deleted deleted_again = Some (MkEffect 300 ∅ ∅ ∅ {[1 := 30]}) ∧
  Effect_and created (MkEffect 300 ∅ ∅ ∅ {[1 := 30]})
  = Some (MkEffect 300 ∅ ∅ ∅ ∅) ∧
  (Effect_and created deleted ≫= λ ab, Effect_and ab deleted_again)
  ≠ (Effect_and deleted deleted_again ≫= λ bc, Effect_and created bc).
Proof. vm_compute. repeat split. discriminate. Qed.

(** Witness of C5 as amended: [created & deleted] nets identifier 1 to
    neutral, and [other_created] does not track it. *)
Lemma Effect_and_assoc_witness :
  Effect_and created deleted = Some (MkEffect 200 ∅ ∅ ∅ ∅) ∧
  Effect_and (MkEffect (K:=nat) (P:=nat) 200 ∅ ∅ ∅ ∅) other_created
  = Some other_created ∧
  Effect_and deleted other_created
  = Some (MkEffect 700 {[2 := 10]} ∅ ∅ {[1 := 20]}) ∧
  Effect_and created (MkEffect 700 {[2 := 10]} ∅ ∅ {[1 := 20]})
  = Some (MkEffect 700 {[2 := 10]} ∅ ∅ ∅) ∧
  other_created = MkEffect 700 {[2 := 10]} ∅ ∅ ∅.
Proof.
  do 4 (split; [vm_compute; reflexivity|]).
  apply (Effect_and_assoc created deleted other_created
           (MkEffect 200 ∅ ∅ ∅ ∅)
           (MkEffect 700 {[2 := 10]} ∅ ∅ {[1 := 20]})).
  - exact one_bucket_created.
  - exact one_bucket_deleted.
  - exact one_bucket_other_created.
  - vm_compute; reflexivity.
  - vm_compute; reflexivity.
  - vm_compute; reflexivity.
  - vm_compute; reflexivity.
  - intros k [_ Hd]. destruct (decide (k = 1)) as [->|Hne].
    + vm_compute; reflexivity.
    + exfalso. change (dead_values deleted) with (<[1 := 20]> (∅ : gmap nat nat)) in Hd.
      rewrite lookup_insert_ne, lookup_empty in Hd by done. by destruct Hd.
  - intros k [_ Hd]. exfalso.
    change (dead_values other_created) with (∅ : gmap nat nat) in Hd.
    rewrite lookup_empty in Hd. by destruct Hd.
Defined.

(** Without the invariant the two groupings can differ although nothing
    raises and nothing is deleted: [twice_tagged] has identifier 1 as new
    and as mutated. *)
Remark Effect_and_assoc_needs_invariant :
  ¬ one_bucket_per_identity twice_tagged ∧
  (Effect_and twice_tagged untouched ≫= λ ab, Effect_and ab changed)
  = Some (MkEffect 150 ∅ {[2 := 10]} {[1 := 20]} ∅) ∧
  (Effect_and untouched changed ≫= λ bc, Effect_and twice_tagged bc)
  = Some (MkEffect 150 {[1 := 20]} {[2 := 10]} ∅ ∅).
Proof.
  split; [|vm_compute; by split].
  intros (_ & Hnm & _). specialize (Hnm 1). by vm_compute in Hnm.
Qed.

(** Witness of C6: New then Translated on one identity raises. *)
Lemma Effect_and_all_or_nothing_witness :
  Effect_and created imported = None.
Proof.
  apply (proj1 (Effect_and_all_or_nothing created imported)).
  exists (IdentityOf x_v1). split; [split|]; vm_compute; eauto.
Defined.

(** Witness of C7. *)
Lemma Effect_and_takes_right_just_witness :
  Effect_and created changed = Some (MkEffect 150 {[1 := 20]} {[2 := 10]} ∅ ∅) ∧
  just (MkEffect (K:=nat) (P:=nat) 150 {[1 := 20]} {[2 := 10]} ∅ ∅)
  = just changed.
Proof.
  split; [vm_compute; reflexivity|].
  apply (Effect_and_takes_right_just created changed). vm_compute; reflexivity.
Defined.

(** Witness of C9: of two New inputs of one identity the later is stored. *)
Lemma of_values_with_state_classifies_witness :
  bucket N (of_values_with_state 0
              [NoValue x_v1; NewValue x_v1; DeadValue y_v1; NewValue x_v2])
    !! value_id x_v2 = Some (value_rest x_v2).
Proof.
  destruct (of_values_with_state_classifies 0
              [NoValue x_v1; NewValue x_v1; DeadValue y_v1; NewValue x_v2])
    as (_ & _ & _ & _ & Hlast).
  apply (Hlast [NoValue x_v1; NewValue x_v1; DeadValue y_v1] (NewValue x_v2) []).
  - reflexivity.
  - reflexivity.
  - intros s' Hin. inversion Hin.
Defined.

(** Witness of C10. *)
Lemma iter_yields_tracked_values_witness :
  one_bucket_per_identity imported ∧
  (x_v1 ∈ iter imported
   ↔ contains (new_values imported) x_v1 = true ∨
     contains (translated_values imported) x_v1 = true ∨
     contains (mutated_values imported) x_v1 = true ∨
     contains (dead_values imported) x_v1 = true).
Proof.
  split; [exact one_bucket_imported|].
  destruct (iter_yields_tracked_values imported)
    as (_ & _ & _ & _ & _ & _ & Hinv & _).
  exact (Hinv one_bucket_imported x_v1).
Defined.

(** * Further properties of the code *)

(** ** Combination under the invariant, and Effects that track nothing *)

Section combination_facts.
Context {K : Type} `{Countable K} {P : Type} `{EqDecision P}.

Local Abbreviation value := (IdentifiedValue K P).
Local Abbreviation tagged := (StateTransition (IdentifiedValue K P)).

(** Under the invariant a combination is settled by its states. *)
Lemma Effect_and_from_states {J J'} (l : Effect K P J) (r e : Effect K P J') :
  one_bucket_per_identity l → one_bucket_per_identity r →
  one_bucket_per_identity e →
  just e = just r →
  (∀ k, and_states (lookup_state l k) (lookup_state r k)
        = Some (lookup_state e k)) →
  Effect_and l r = Some e.
Proof.
  intros Hl Hr He Hj Hs. destruct (Effect_and l r) as [e'|] eqn:Hand.
  - f_equal. apply Effect_ext; [by eapply Effect_and_one_bucket|done| |].
    + by rewrite (Effect_and_just _ _ _ Hand).
    + intros k. pose proof (Effect_and_states l r e' k Hl Hr Hand) as Hk.
      rewrite Hs in Hk. by injection Hk.
  - apply Effect_and_None in Hand as [k Hk]. exfalso.
    rewrite next_value_at_states in Hk by done. specialize (Hs k).
    destruct (lookup_state l k), (lookup_state r k); simpl in *; try done.
    by destruct (and_ _ _).
Qed.

Lemma lookup_state_Effect_of {J} (j : J) k :
  lookup_state (Effect_of (K:=K) (P:=P) j) k = None.
Proof. unfold lookup_state. simpl. by rewrite lookup_empty. Qed.

Lemma one_bucket_Effect_of {J} (j : J) :
  one_bucket_per_identity (Effect_of (K:=K) (P:=P) j).
Proof. repeat split; apply map_disjoint_empty_l. Qed.

Lemma lookup_state_with_just {J J'} (e : Effect K P J) (j : J') k :
  lookup_state (MkEffect j (new_values e) (translated_values e)
                  (mutated_values e) (dead_values e)) k
  = lookup_state e k.
Proof. done. Qed.

(** A tracked value is never classified as neutral by the lookup by value. *)
Lemma tracked_has_bucket {J} (e : Effect K P J) k p :
  tracked e !! k = Some p →
  has_bucket (value_with_state_by_value e (Value k p)) = true.
Proof.
  rewrite lookup_tracked. unfold value_with_state_by_value, contains. simpl.
  intros Hp. repeat case_bool_decide; try done.
  destruct (dead_values e !! k), (mutated_values e !! k),
    (translated_values e !! k), (new_values e !! k); congruence.
Qed.

Lemma has_bucket_with_tag (s : tagged) :
  has_bucket s = true → tag s ≠ E ∧ stored s = Some s.
Proof. by destruct s. Qed.

(** Every defined result of the rule carries the right operand's value when
    that operand is not neutral. *)
Lemma and_just_of_right (a b s : tagged) :
  and_ a b = Some s → has_bucket b = true → just_of s = just_of b.
Proof. destruct a, b; simpl; intros [= <-]; done. Qed.

Lemma and_None_tags (a b : tagged) :
  and_ a b = None ↔ listed_invalid (tag a) (tag b) = true.
Proof. destruct a, b; simpl; split; congruence. Qed.

(** The pairing of an identifier raises exactly when both operands hold a
    state for it and the rule rejects the two states. *)
Lemma next_value_at_None {J J'} (l : Effect K P J) (r : Effect K P J') k :
  next_value_at l r k = None
  ↔ ∃ a b, lookup_state l k = Some a ∧ lookup_state r k = Some b ∧
           and_ a b = None.
Proof.
  unfold next_value_at.
  destruct (tracked l !! k) as [p|] eqn:Hl, (tracked r !! k) as [q|] eqn:Hr.
  - rewrite !by_identity_lookup_state. simpl.
    destruct (lookup_state l k) as [a|] eqn:Ha;
      [|apply tracked_None_lookup_state in Ha; congruence].
    destruct (lookup_state r k) as [b|] eqn:Hb;
      [|apply tracked_None_lookup_state in Hb; congruence].
    simpl. split.
    + destruct (and_ a b) eqn:Hab; [done|]. eauto.
    + intros (a' & b' & [= <-] & [= <-] & ->). done.
  - apply tracked_None_lookup_state in Hr. split; [done|].
    intros (a & b & _ & Hb & _). congruence.
  - apply tracked_None_lookup_state in Hl. split; [done|].
    intros (a & b & Ha & _). congruence.
  - apply tracked_None_lookup_state in Hl. split; [done|].
    intros (a & b & Ha & _). congruence.
Qed.

(** The tag an Effect holds for an identifier depends only on which of its
    buckets hold the identifier. *)
Lemma lookup_state_tag_dom {J J'} (e : Effect K P J) (e' : Effect K P J') k :
  (∀ t, dom (bucket t e) = dom (bucket t e')) →
  tag <$> lookup_state e k = tag <$> lookup_state e' k.
Proof.
  intros Hdom.
  assert (∀ t, bucket t e !! k = None ↔ bucket t e' !! k = None) as Hk.
  { intros t. by rewrite <-!not_elem_of_dom, (Hdom t). }
  pose proof (Hk N) as HN. pose proof (Hk T) as HT.
  pose proof (Hk M) as HM. pose proof (Hk D) as HD.
  unfold lookup_state. simpl in *.
  destruct (new_values e !! k), (new_values e' !! k),
    (translated_values e !! k), (translated_values e' !! k),
    (mutated_values e !! k), (mutated_values e' !! k),
    (dead_values e !! k), (dead_values e' !! k); simpl; try done;
    solve [ by destruct HN as [HN1 HN2]; (discriminate HN1 || discriminate HN2)
          | by destruct HT as [HT1 HT2]; (discriminate HT1 || discriminate HT2)
          | by destruct HM as [HM1 HM2]; (discriminate HM1 || discriminate HM2)
          | by destruct HD as [HD1 HD2]; (discriminate HD1 || discriminate HD2) ].
Qed.
End combination_facts.

(** ** The two lookups *)

Section lookup_properties.
Context {K : Type} `{Countable K} {P : Type} `{EqDecision P}.

Local Abbreviation value := (IdentifiedValue K P).
Local Abbreviation tagged := (StateTransition (IdentifiedValue K P)).

(** Under the invariant, a value the lookup by value classifies is the one
    the iteration yields for its identity. *)
Lemma has_bucket_tracked {J} (e : Effect K P J) k p :
  one_bucket_per_identity e →
  has_bucket (value_with_state_by_value e (Value k p)) = true →
  tracked e !! k = Some p.
Proof.
  intros (Hnt & Hnm & Hnd & Htm & Htd & Hmd).
  rewrite lookup_tracked. unfold value_with_state_by_value, contains. simpl.
  specialize (Hnt k). specialize (Hnm k). specialize (Hnd k).
  specialize (Htm k). specialize (Htd k). specialize (Hmd k).
  repeat case_bool_decide; try done; intros _;
    destruct (dead_values e !! k), (mutated_values e !! k),
      (translated_values e !! k), (new_values e !! k);
    simpl in *; try done; congruence.
Qed.

(** X1: Every value an Effect yields on iteration is classified with one of the
    four non-neutral tags by both lookups: by value, and by the identity of
    the value. *)
Theorem iter_values_are_classified {J} (e : Effect K P J) (v : value) :
  v ∈ iter e →
  has_bucket (value_with_state_by_value e v) = true ∧
  has_bucket (value_with_state_by_identity e (IdentityOf v)) = true.
Proof.
  destruct v as [k p]. unfold iter. rewrite elem_of_values. intros Hk. split.
  - by apply tracked_has_bucket.
  - rewrite by_identity_lookup_state. simpl.
    destruct (lookup_state e k) as [s|] eqn:Hs.
    + apply lookup_state_stored in Hs. by destruct s.
    + apply tracked_None_lookup_state in Hs. congruence.
Qed.

(** X2: Under the invariant, whenever the lookup by value finds a value, the
    lookup by the identity of that value returns the same tagged value. *)
Theorem lookups_agree {J} (e : Effect K P J) (v : value) :
  one_bucket_per_identity e →
  has_bucket (value_with_state_by_value e v) = true →
  value_with_state_by_identity e (IdentityOf v)
  = value_with_state_by_value e v.
Proof.
  destruct v as [k p]. intros He Hv.
  pose proof (has_bucket_tracked e k p He Hv) as Hk.
  rewrite by_identity_lookup_state. simpl.
  by rewrite (by_value_lookup_state e k p He Hk).
Qed.

(** X3: The lookup by identity looks at the identifier only: two identities of
    one identifier get the same tag, and the same tagged value whenever the
    identifier is in a bucket; the wrapped value of the identity asked for
    shows up in the neutral answer only. *)
Theorem by_identity_depends_on_identifier {J} (e : Effect K P J)
    (i j : Identity K P) :
  value_id (Identity.value i) = value_id (Identity.value j) →
  tag (value_with_state_by_identity e i)
  = tag (value_with_state_by_identity e j) ∧
  (has_bucket (value_with_state_by_identity e i) = true →
   value_with_state_by_identity e i = value_with_state_by_identity e j) ∧
  (has_bucket (value_with_state_by_identity e i) = false →
   value_with_state_by_identity e i = NoValue (Identity.value i) ∧
   value_with_state_by_identity e j = NoValue (Identity.value j)).
Proof.
  intros Hid. rewrite !by_identity_lookup_state, Hid.
  destruct (lookup_state e _) as [s|] eqn:Hs; simpl; [|done].
  apply lookup_state_stored in Hs. repeat split; try done; by destruct s.
Qed.

(** X4: Asking, under the invariant, for another version of a stored value:
    the lookup by value answers NoValue with the version asked for, the
    lookup by identity answers with the bucket's tag and the stored
    version. *)
Theorem lookup_of_other_version {J} (e : Effect K P J) (t : Tag) k (p p' : P) :
  one_bucket_per_identity e →
  bucket t e !! k = Some p →
  p' ≠ p →
  value_with_state_by_value e (Value k p') = NoValue (Value k p') ∧
  value_with_state_by_identity e (IdentityOf (Value k p'))
  = with_tag t (Value k p).
Proof.
  intros (Hnt & Hnm & Hnd & Htm & Htd & Hmd) Hb Hne.
  rewrite by_identity_lookup_state.
  unfold value_with_state_by_value, contains, lookup_state. simpl.
  specialize (Hnt k). specialize (Hnm k). specialize (Hnd k).
  specialize (Htm k). specialize (Htd k). specialize (Hmd k).
  destruct t; simpl in Hb; [..|by rewrite lookup_empty in Hb];
    rewrite Hb in *;
    destruct (dead_values e !! k), (mutated_values e !! k),
      (translated_values e !! k), (new_values e !! k);
    simpl in *; try done; simplify_eq;
    repeat case_bool_decide; by simplify_eq.
Qed.
End lookup_properties.

(** ** The classifying constructor *)

Section constructor_properties.
Context {K : Type} `{Countable K} {P : Type} `{EqDecision P}.

Local Abbreviation value := (IdentifiedValue K P).
Local Abbreviation tagged := (StateTransition (IdentifiedValue K P)).

Lemma of_values_app (l1 l2 : list value) :
  of_values (l1 ++ l2) = set_or (of_values l1) (of_values l2).
Proof.
  unfold set_or. induction l2 as [|v l2 IH] using rev_ind.
  - rewrite app_nil_r, of_values_nil. by rewrite (left_id ∅ (∪)).
  - rewrite app_assoc, !of_values_snoc, IH. unfold insert_value.
    by rewrite insert_union_l.
Qed.

(** The identifiers of a bucket are those of the inputs given with its tag. *)
Lemma bucket_is_Some {J} (t : Tag) (j : J) (vs : list tagged) k :
  is_Some (bucket t (of_values_with_state j vs) !! k)
  ↔ ∃ s, s ∈ vs ∧ tag s = t ∧ t ≠ E ∧ value_id (just_of s) = k.
Proof.
  rewrite bucket_of_values_with_state, <-not_eq_None_Some,
    of_values_lookup_None.
  split.
  - intros Hin.
    destruct (decide (k ∈ value_id <$> omap (bucket_just t) vs))
      as [Hk|Hk]; [|done].
    apply list_elem_of_fmap in Hk
      as (v & -> & (s & Hs & [-> Ht]%bucket_just_Some)%list_elem_of_omap).
    exists (with_tag t v). by destruct t.
  - intros (s & Hs & <- & Ht & <-) Hnot. apply Hnot, list_elem_of_fmap.
    exists (just_of s). split; [done|]. apply list_elem_of_omap.
    exists s. split; [done|]. apply bucket_just_Some.
    by rewrite with_tag_just_of.
Qed.

Lemma one_bucket_disjoint {J} (e : Effect K P J) (t t' : Tag) :
  one_bucket_per_identity e → t ≠ t' → bucket t e ##ₘ bucket t' e.
Proof.
  intros (Hnt & Hnm & Hnd & Htm & Htd & Hmd) Hne.
  destruct t, t'; simpl; try done;
    solve [ by apply map_disjoint_empty_l | by apply map_disjoint_empty_r
          | by symmetry ].
Qed.

Lemma NoDup_fmap_eq {A B} (f : A → B) (l : list A) (x y : A) :
  NoDup (f <$> l) → x ∈ l → y ∈ l → f x = f y → x = y.
Proof.
  intros Hnd [n Hn]%list_elem_of_lookup [m Hm]%list_elem_of_lookup Hf.
  assert (n = m) as ->; [|congruence].
  apply (NoDup_lookup (f <$> l) n m (f x)); [done|..];
    rewrite list_lookup_fmap; [by rewrite Hn|by rewrite Hm, Hf].
Qed.

(** X5: Classifying tagged values of pairwise distinct identities and looking
    one of them up again, by value or by identity, gives back the tagged
    value that was put in: the same tag and the same value, NoValue
    included. *)
Theorem lookup_after_of_values_with_state {J} (j : J) (vs : list tagged)
    (s : tagged) :
  NoDup (value_id ∘ just_of <$> vs) →
  s ∈ vs →
  value_with_state_by_value (of_values_with_state j vs) (just_of s) = s ∧
  value_with_state_by_identity (of_values_with_state j vs)
    (IdentityOf (just_of s)) = s.
Proof.
  intros Hnd Hs.
  assert (∀ t, bucket t (of_values_with_state j vs) !! value_id (just_of s)
               = rest_if t s) as Hb.
  { intros t. apply option_eq. intros p.
    rewrite (bucket_lookup_NoDup t j vs _ p Hnd). split.
    - intros [Hin Ht].
      pose proof (NoDup_fmap_eq _ _ _ _ Hnd Hin Hs) as Heq.
      rewrite <-Heq by by destruct t. by destruct t.
    - unfold rest_if. destruct (bucket_just t s) as [v|] eqn:Hbj; [|done].
      apply bucket_just_Some in Hbj as [-> Ht]. intros [= <-].
      split; [|done]. by destruct t, v. }
  pose proof (Hb N) as HN. pose proof (Hb T) as HT.
  pose proof (Hb M) as HM. pose proof (Hb D) as HD. simpl in *.
  rewrite by_identity_lookup_state.
  unfold value_with_state_by_value, contains, lookup_state. simpl.
  rewrite HN, HT, HM, HD.
  destruct s as [[k p]|[k p]|[k p]|[k p]|[k p]]; simpl;
    repeat case_bool_decide; done.
Qed.

(** X6: The constructor establishes the invariant exactly when no identity comes
    with two different non-neutral tags. *)
Theorem of_values_with_state_one_bucket {J} (j : J) (vs : list tagged) :
  one_bucket_per_identity (of_values_with_state j vs)
  ↔ ∀ s s', s ∈ vs → s' ∈ vs →
            has_bucket s = true → has_bucket s' = true →
            value_id (just_of s) = value_id (just_of s') →
            tag s = tag s'.
Proof.
  split.
  - intros He s s' Hs Hs' Hb Hb' Hid.
    assert (tag s ≠ tag s' → False) as Hcontra;
      [|by destruct (tag s), (tag s'); try done; exfalso; apply Hcontra].
    intros Hne.
    pose proof (one_bucket_disjoint _ _ _ He Hne) as Hdisj.
    assert (is_Some (bucket (tag s) (of_values_with_state j vs)
                       !! value_id (just_of s))) as [p Hp].
    { apply bucket_is_Some. exists s. by destruct s. }
    assert (is_Some (bucket (tag s') (of_values_with_state j vs)
                       !! value_id (just_of s))) as [p' Hp'].
    { apply bucket_is_Some. exists s'. by destruct s'. }
    by eapply map_disjoint_spec.
  - intros Hvs.
    assert (∀ t t', t ≠ t' →
              bucket t (of_values_with_state j vs)
              ##ₘ bucket t' (of_values_with_state j vs)) as Hd.
    { intros t t' Hne. apply map_disjoint_spec. intros k p p' Hp Hp'.
      assert (is_Some (bucket t (of_values_with_state j vs) !! k)) as
        (s & Hs & <- & Ht & <-)%bucket_is_Some by eauto.
      assert (is_Some (bucket t' (of_values_with_state j vs)
                         !! value_id (just_of s))) as
        (s' & Hs' & <- & Ht' & Hid)%bucket_is_Some by eauto.
      apply Hne. apply Hvs; try done; [by destruct s|by destruct s']. }
    repeat split;
      [apply (Hd N T)|apply (Hd N M)|apply (Hd N D)
      |apply (Hd T M)|apply (Hd T D)|apply (Hd M D)]; done.
Qed.

(** X7: Classifying a concatenation is the bucket-wise union of classifying the
    two parts, in which a later input replaces an earlier one of the same
    identity. *)
Theorem of_values_with_state_app {J} (j : J) (vs ws : list tagged) :
  of_values_with_state j (vs ++ ws)
  = MkEffect j
      (set_or (new_values (of_values_with_state j vs))
              (new_values (of_values_with_state j ws)))
      (set_or (translated_values (of_values_with_state j vs))
              (translated_values (of_values_with_state j ws)))
      (set_or (mutated_values (of_values_with_state j vs))
              (mutated_values (of_values_with_state j ws)))
      (set_or (dead_values (of_values_with_state j vs))
              (dead_values (of_values_with_state j ws))).
Proof.
  unfold of_values_with_state. simpl. by rewrite !omap_app, !of_values_app.
Qed.
End constructor_properties.

(** ** Combination: neutral operands, disjoint operands, repetition *)

Section combination_properties.
Context {K : Type} `{Countable K} {P : Type} `{EqDecision P}.

Local Abbreviation value := (IdentifiedValue K P).
Local Abbreviation tagged := (StateTransition (IdentifiedValue K P)).

Lemma tracked_Effect_of {J} (j : J) : tracked (Effect_of (K:=K) (P:=P) j) = ∅.
Proof. apply map_eq. intros k. by rewrite lookup_tracked, lookup_empty. Qed.

Lemma values_empty : values (∅ : gmap K P) = [].
Proof. unfold values. by rewrite map_to_list_empty. Qed.

Lemma set_sub_empty_r (s : gmap K P) : set_sub s ∅ = s.
Proof. apply map_difference_empty. Qed.

Lemma set_sub_empty_l (s : gmap K P) : set_sub ∅ s = ∅.
Proof. apply map_empty_difference. Qed.

Lemma set_and_empty_r (s : gmap K P) : set_and s ∅ = ∅.
Proof. apply map_eq. intros k. rewrite lookup_set_and. by destruct (s !! k). Qed.

Lemma set_and_empty_l (s : gmap K P) : set_and ∅ s = ∅.
Proof. apply map_eq. intros k. by rewrite lookup_set_and, lookup_empty. Qed.

(** What [e & Effect(j)] computes, for any [e]. *)
Lemma Effect_and_Effect_of_r {J J'} (e : Effect K P J) (j : J') :
  Effect_and e (Effect_of j)
  = Some (of_values_with_state j (value_with_state_by_value e <$> iter e)).
Proof.
  unfold Effect_and, next_intersection_values, next_left_difference_values,
    next_right_difference_values.
  rewrite !of_values_iter, tracked_Effect_of, set_and_empty_r,
    set_sub_empty_r, set_sub_empty_l.
  unfold identities. rewrite values_empty. simpl. by rewrite app_nil_r.
Qed.

(** What [Effect(j) & e] computes, for any [e]. *)
Lemma Effect_and_Effect_of_l {J J'} (e : Effect K P J) (j : J') :
  Effect_and (Effect_of j) e
  = Some (of_values_with_state (just e)
            (value_with_state_by_value e <$> iter e)).
Proof.
  unfold Effect_and, next_intersection_values, next_left_difference_values,
    next_right_difference_values.
  rewrite !of_values_iter, tracked_Effect_of, set_and_empty_l,
    set_sub_empty_r, set_sub_empty_l.
  unfold identities. rewrite values_empty. done.
Qed.

Lemma Effect_and_Effect_of_r_invariant {J J'} (e : Effect K P J) (j : J') :
  one_bucket_per_identity e →
  Effect_and e (Effect_of j)
  = Some (MkEffect j (new_values e) (translated_values e)
            (mutated_values e) (dead_values e)).
Proof.
  intros He.
  apply Effect_and_from_states;
    [done|apply one_bucket_Effect_of|exact He|done|].
  intros k. rewrite lookup_state_Effect_of, lookup_state_with_just.
  by destruct (lookup_state e k).
Qed.

Lemma Effect_and_Effect_of_l_invariant {J J'} (e : Effect K P J) (j : J') :
  one_bucket_per_identity e →
  Effect_and (Effect_of j) e = Some e.
Proof.
  intros He.
  apply Effect_and_from_states;
    [apply one_bucket_Effect_of|done|done|done|].
  intros k. by rewrite lookup_state_Effect_of.
Qed.

(** X8: Rebuilding an Effect from what it yields: under the invariant,
    classifying the iterated values by the lookup by value and handing the
    tagged values to the constructor gives the Effect back. *)
Theorem of_values_with_state_iter {J} (e : Effect K P J) :
  one_bucket_per_identity e →
  of_values_with_state (just e) (value_with_state_by_value e <$> iter e) = e.
Proof.
  intros He.
  pose proof (Effect_and_Effect_of_l e tt) as Hraw.
  rewrite (Effect_and_Effect_of_l_invariant e tt He) in Hraw.
  by injection Hraw.
Qed.

(** X9: An Effect that tracks nothing is neutral for [&] on Effects that keep
    the invariant: on the right it only replaces the primary value, on the
    left it changes nothing.  For any operand the combination with it
    succeeds. *)
Theorem Effect_and_Effect_of {J J'} (e : Effect K P J) (j : J') :
  is_Some (Effect_and e (Effect_of j)) ∧
  is_Some (Effect_and (Effect_of j) e) ∧
  (one_bucket_per_identity e →
   Effect_and e (Effect_of j)
   = Some (MkEffect j (new_values e) (translated_values e)
             (mutated_values e) (dead_values e)) ∧
   Effect_and (Effect_of j) e = Some e).
Proof.
  split; [by rewrite Effect_and_Effect_of_r|].
  split; [by rewrite Effect_and_Effect_of_l|].
  intros He. split.
  - by apply Effect_and_Effect_of_r_invariant.
  - by apply Effect_and_Effect_of_l_invariant.
Qed.

Lemma Effect_and_union {J J'} (l : Effect K P J) (r : Effect K P J') :
  one_bucket_per_identity l →
  one_bucket_per_identity r →
  tracked l ##ₘ tracked r →
  Effect_and l r
  = Some (MkEffect (just r)
            (new_values l ∪ new_values r)
            (translated_values l ∪ translated_values r)
            (mutated_values l ∪ mutated_values r)
            (dead_values l ∪ dead_values r)).
Proof.
  intros Hl Hr Hd.
  assert (∀ k, tracked l !! k = None ∨ tracked r !! k = None) as Hk.
  { intros k. specialize (Hd k).
    destruct (tracked l !! k), (tracked r !! k); simpl in Hd; try done; auto. }
  pose proof Hl as (Hnt & Hnm & Hnd & Htm & Htd & Hmd).
  pose proof Hr as (Hnt' & Hnm' & Hnd' & Htm' & Htd' & Hmd').
  apply Effect_and_from_states; [exact Hl|exact Hr| |done|]; clear Hl Hr.
  - repeat split; intros k; simpl; rewrite !lookup_union;
      specialize (Hk k); rewrite !lookup_tracked in Hk;
      specialize (Hnt k); specialize (Hnm k); specialize (Hnd k);
      specialize (Htm k); specialize (Htd k); specialize (Hmd k);
      specialize (Hnt' k); specialize (Hnm' k); specialize (Hnd' k);
      specialize (Htm' k); specialize (Htd' k); specialize (Hmd' k);
      destruct (new_values l !! k), (translated_values l !! k),
        (mutated_values l !! k), (dead_values l !! k); simpl in *; try done;
      destruct (new_values r !! k), (translated_values r !! k),
        (mutated_values r !! k), (dead_values r !! k); simpl in *; try done;
      by destruct Hk.
  - intros k. unfold lookup_state. simpl. rewrite !lookup_union.
    specialize (Hk k). rewrite !lookup_tracked in Hk.
    specialize (Hnt k). specialize (Hnm k). specialize (Hnd k).
    specialize (Htm k). specialize (Htd k). specialize (Hmd k).
    specialize (Hnt' k). specialize (Hnm' k). specialize (Hnd' k).
    specialize (Htm' k). specialize (Htd' k). specialize (Hmd' k).
    destruct (new_values l !! k), (translated_values l !! k),
      (mutated_values l !! k), (dead_values l !! k); simpl in *; try done;
      destruct (new_values r !! k), (translated_values r !! k),
        (mutated_values r !! k), (dead_values r !! k); simpl in *; try done;
      by destruct Hk.
Qed.

Lemma tracked_disjoint_buckets {J J'} (l : Effect K P J) (r : Effect K P J') :
  tracked l ##ₘ tracked r →
  new_values r ∪ new_values l = new_values l ∪ new_values r ∧
  translated_values r ∪ translated_values l
  = translated_values l ∪ translated_values r ∧
  mutated_values r ∪ mutated_values l = mutated_values l ∪ mutated_values r ∧
  dead_values r ∪ dead_values l = dead_values l ∪ dead_values r.
Proof.
  intros Hd. repeat split; apply map_union_comm; intros k;
    specialize (Hd k); rewrite !lookup_tracked in Hd;
    destruct (new_values l !! k), (translated_values l !! k),
      (mutated_values l !! k), (dead_values l !! k); simpl in *; try done;
    destruct (new_values r !! k), (translated_values r !! k),
      (mutated_values r !! k), (dead_values r !! k); simpl in *; done.
Qed.

(** X10: Two Effects that keep the invariant and track no common identity
    combine without raising, in either order, into the bucket-wise union;
    the order only decides the primary value, which is that of the right
    operand. *)
Theorem Effect_and_disjoint {J J'} (l : Effect K P J) (r : Effect K P J') :
  one_bucket_per_identity l →
  one_bucket_per_identity r →
  tracked l ##ₘ tracked r →
  Effect_and l r
  = Some (MkEffect (just r)
            (new_values l ∪ new_values r)
            (translated_values l ∪ translated_values r)
            (mutated_values l ∪ mutated_values r)
            (dead_values l ∪ dead_values r)) ∧
  Effect_and r l
  = Some (MkEffect (just l)
            (new_values l ∪ new_values r)
            (translated_values l ∪ translated_values r)
            (mutated_values l ∪ mutated_values r)
            (dead_values l ∪ dead_values r)).
Proof.
  intros Hl Hr Hd. split; [by apply Effect_and_union|].
  destruct (tracked_disjoint_buckets l r Hd) as (<- & <- & <- & <-).
  apply Effect_and_union; [done..|]. by symmetry.
Qed.

(** X11: Combining an Effect that keeps the invariant with itself gives the
    Effect back: no tag raises against itself. *)
Theorem Effect_and_idempotent {J} (e : Effect K P J) :
  one_bucket_per_identity e → Effect_and e e = Some e.
Proof.
  intros He. apply Effect_and_from_states; [done..|].
  intros k. destruct (lookup_state e k) as [s|] eqn:Hs; [|done].
  apply lookup_state_stored in Hs. by destruct s.
Qed.
End combination_properties.

(** ** Combination: which identities and versions survive, and when it
    raises *)

Section survival_properties.
Context {K : Type} `{Countable K} {P : Type} `{EqDecision P}.

Local Abbreviation value := (IdentifiedValue K P).
Local Abbreviation tagged := (StateTransition (IdentifiedValue K P)).

(** What a successful combination yields for an identifier. *)
Lemma tracked_Effect_and {J J'} (l : Effect K P J) (r : Effect K P J') e k :
  Effect_and l r = Some e →
  tracked e !! k
  = match next_value_at l r k with
    | Some (Some s) => if has_bucket s then Some (value_rest (just_of s))
                       else None
    | _ => None
    end.
Proof.
  intros Hand. rewrite lookup_tracked.
  change (new_values e) with (bucket N e).
  change (translated_values e) with (bucket T e).
  change (mutated_values e) with (bucket M e).
  change (dead_values e) with (bucket D e).
  rewrite !(Effect_and_bucket_lookup l r e _ k Hand).
  destruct (next_value_at l r k) as [[[]|]|]; done.
Qed.

(** X12: A successful combination tracks no identity that neither operand
    tracks, and an identity tracked by one operand only is yielded by the
    combination with the value that operand yields. *)
Theorem Effect_and_tracked {J J'} (l : Effect K P J) (r : Effect K P J')
    (e : Effect K P J') :
  Effect_and l r = Some e →
  (∀ k, is_Some (tracked e !! k) →
        is_Some (tracked l !! k) ∨ is_Some (tracked r !! k)) ∧
  (∀ k p, tracked l !! k = Some p → tracked r !! k = None →
          tracked e !! k = Some p) ∧
  (∀ k q, tracked l !! k = None → tracked r !! k = Some q →
          tracked e !! k = Some q).
Proof.
  intros Hand. repeat split.
  - intros k. rewrite (tracked_Effect_and l r e k Hand). unfold next_value_at.
    destruct (tracked l !! k), (tracked r !! k); eauto.
  - intros k p Hl Hr. rewrite (tracked_Effect_and l r e k Hand).
    unfold next_value_at. rewrite Hl, Hr.
    by rewrite (tracked_has_bucket l k p Hl), by_value_just_of.
  - intros k q Hl Hr. rewrite (tracked_Effect_and l r e k Hand).
    unfold next_value_at. rewrite Hl, Hr.
    by rewrite (tracked_has_bucket r k q Hr), by_value_just_of.
Qed.

(** X13: For an identity both operands track, a successful combination either
    drops the identity or yields the version of the right operand, when the
    right operand keeps the invariant: the left version never survives. *)
Theorem Effect_and_right_version {J J'} (l : Effect K P J) (r : Effect K P J')
    (e : Effect K P J') k p q :
  one_bucket_per_identity r →
  Effect_and l r = Some e →
  tracked l !! k = Some p →
  tracked r !! k = Some q →
  tracked e !! k = Some q ∨ tracked e !! k = None.
Proof.
  intros Hr Hand Hlk Hrk. rewrite (tracked_Effect_and l r e k Hand).
  unfold next_value_at. rewrite Hlk, Hrk.
  destruct (and_ _ _) as [s|] eqn:Hs; simpl; [|by right].
  destruct (has_bucket s); [|by right]. left.
  apply and_just_of_right in Hs.
  - rewrite Hs, by_identity_lookup_state. simpl.
    rewrite (by_value_lookup_state r k q Hr Hrk). simpl.
    by rewrite by_value_just_of.
  - rewrite by_identity_lookup_state. simpl.
    rewrite (by_value_lookup_state r k q Hr Hrk). simpl.
    by apply tracked_has_bucket.
Qed.

(** X14: Whether [left & right] raises depends only on which buckets hold which
    identifiers: operands with the same identifiers in the same buckets,
    whatever the stored versions and the primary values, raise together. *)
Theorem Effect_and_raises_by_buckets {J1 J2 J3 J4}
    (l : Effect K P J1) (r : Effect K P J2)
    (l' : Effect K P J3) (r' : Effect K P J4) :
  (∀ t, dom (bucket t l) = dom (bucket t l')) →
  (∀ t, dom (bucket t r) = dom (bucket t r')) →
  Effect_and l r = None ↔ Effect_and l' r' = None.
Proof.
  assert (∀ Ja Jb Jc Jd (a : Effect K P Ja) (b : Effect K P Jb)
            (a' : Effect K P Jc) (b' : Effect K P Jd),
            (∀ t, dom (bucket t a) = dom (bucket t a')) →
            (∀ t, dom (bucket t b) = dom (bucket t b')) →
            Effect_and a b = None → Effect_and a' b' = None) as Hone.
  { intros Ja Jb Jc Jd a b a' b' Ha Hb.
    rewrite !Effect_and_None. intros [k Hk]. exists k.
    apply next_value_at_None in Hk as (x & y & Hx & Hy & Hxy).
    apply next_value_at_None.
    pose proof (lookup_state_tag_dom a a' k Ha) as Hta.
    pose proof (lookup_state_tag_dom b b' k Hb) as Htb.
    rewrite Hx in Hta. rewrite Hy in Htb.
    destruct (lookup_state a' k) as [x'|]; [|done].
    destruct (lookup_state b' k) as [y'|]; [|done].
    exists x', y'. repeat split.
    apply and_None_tags. apply and_None_tags in Hxy.
    simpl in Hta, Htb. congruence. }
  intros Hl Hr. split; apply Hone; done.
Qed.
End survival_properties.

(** ** The sequencing combinators *)

Section sequencing_properties.
Context {K : Type} `{Countable K} {P : Type} `{EqDecision P}.

(** X16: Mapping twice is mapping the composition; mapping the identity function
    gives the Effect back exactly when its translated bucket is empty. *)
Theorem map_compose_and_id {J R S} (e : Effect K P J) (f : J → R) (g : R → S) :
  map (map e f) g = map e (g ∘ f) ∧
  (map e id = e ↔ translated_values e = ∅).
Proof.
  split; [done|]. unfold map. destruct e as [j n t m d]. simpl. split.
  - by intros [= ->].
  - by intros ->.
Qed.

(** X17: Sequencing with a step that tracks nothing: on an Effect that keeps the
    invariant, [and_then] with a function returning [Effect(f(just))]
    replaces the primary value by [f(just)] and keeps all four buckets, the
    translated one included; and starting from an Effect that tracks
    nothing, [and_then] returns what the function returns. *)
Theorem and_then_Effect_of {J J'} (e : Effect K P J) (f : J → J')
    (j : J) (g : J → Effect K P J') :
  (one_bucket_per_identity e →
   and_then e (λ x, Effect_of (f x))
   = Some (MkEffect (f (just e)) (new_values e) (translated_values e)
             (mutated_values e) (dead_values e))) ∧
  (one_bucket_per_identity (g j) →
   and_then (Effect_of j) g = Some (g j)).
Proof.
  unfold and_then. split; intros Hinv.
  - by apply Effect_and_Effect_of_r_invariant.
  - by apply Effect_and_Effect_of_l_invariant.
Qed.
End sequencing_properties.

(** ** Primary values *)

Section primary_value_properties.
Context {K : Type} `{Countable K} {P : Type} `{EqDecision P}.

(** X15: [left & right] never looks at the primary values: with other primary
    values in the operands it raises in the same cases and builds the same
    four buckets; the primary value of the left operand is dropped, that of
    the right operand is handed over. *)
Theorem Effect_and_primary_values {J1 J2 J3 J4} (l : Effect K P J1)
    (r : Effect K P J2) (j1 : J3) (j2 : J4) :
  Effect_and
    (MkEffect j1 (new_values l) (translated_values l)
       (mutated_values l) (dead_values l))
    (MkEffect j2 (new_values r) (translated_values r)
       (mutated_values r) (dead_values r))
  = (λ e, MkEffect j2 (new_values e) (translated_values e)
            (mutated_values e) (dead_values e)) <$> Effect_and l r.
Proof.
  destruct l as [jl nl tl ml dl], r as [jr nr tr mr dr].
  unfold Effect_and. simpl.
  change (next_intersection_values (MkEffect j1 nl tl ml dl)
            (MkEffect j2 nr tr mr dr))
    with (next_intersection_values (MkEffect jl nl tl ml dl)
            (MkEffect jr nr tr mr dr)).
  by destruct (next_intersection_values _ _).
Qed.
End primary_value_properties.

(** ** The further properties on the sample values *)

Lemma one_bucket_changed : one_bucket_per_identity changed.
Proof. repeat split; apply (bool_decide_unpack _); vm_compute; exact I. Defined.

Lemma iter_values_are_classified_witness :
  x_v1 ∈ iter created ∧
  has_bucket (value_with_state_by_value created x_v1) = true ∧
  has_bucket (value_with_state_by_identity created (IdentityOf x_v1)) = true.
Proof.
  assert (x_v1 ∈ iter created) as Hin
    by (apply elem_of_values'; vm_compute; reflexivity).
  split; [exact Hin|]. exact (iter_values_are_classified created x_v1 Hin).
Defined.

Lemma lookups_agree_witness :
  value_with_state_by_identity imported (IdentityOf x_v1)
  = value_with_state_by_value imported x_v1.
Proof.
  apply (lookups_agree imported x_v1).
  - exact one_bucket_imported.
  - vm_compute; reflexivity.
Defined.

(** Without the invariant the two lookups can disagree on a value both
    find. *)
Remark lookups_disagree_twice_tagged :
  value_with_state_by_value twice_tagged x_v2 = MutatedValue x_v2 ∧
  value_with_state_by_identity twice_tagged (IdentityOf x_v2) = NewValue x_v1.
Proof. vm_compute. by split. Qed.

Lemma by_identity_depends_on_identifier_witness :
  tag (value_with_state_by_identity created (IdentityOf x_v1))
  = tag (value_with_state_by_identity created (IdentityOf x_v2)).
Proof.
  apply (by_identity_depends_on_identifier created
           (IdentityOf x_v1) (IdentityOf x_v2)).
  reflexivity.
Defined.

Lemma lookup_of_other_version_witness :
  value_with_state_by_value created (Value 1 20) = NoValue (Value 1 20) ∧
  value_with_state_by_identity created (IdentityOf (Value 1 20))
  = with_tag N (Value 1 10).
Proof.
  apply (lookup_of_other_version created N 1 10 20).
  - exact one_bucket_created.
  - vm_compute; reflexivity.
  - discriminate.
Defined.

Lemma lookup_after_of_values_with_state_witness :
  value_with_state_by_value
    (of_values_with_state 0 [NewValue x_v1; NoValue y_v1]) (just_of (NoValue y_v1))
  = NoValue y_v1 ∧
  value_with_state_by_identity
    (of_values_with_state 0 [NewValue x_v1; NoValue y_v1])
    (IdentityOf (just_of (NoValue y_v1)))
  = NoValue y_v1.
Proof.
  apply (lookup_after_of_values_with_state 0
           [NewValue x_v1; NoValue y_v1] (NoValue y_v1)).
  - apply (bool_decide_unpack _); vm_compute; exact I.
  - right; left.
Defined.

(** The constructor does not enforce the invariant: one identity given as
    New and as Mutated ends up in two buckets. *)
Lemma of_values_with_state_one_bucket_witness :
  ¬ one_bucket_per_identity
      (of_values_with_state 600 [NewValue x_v1; MutatedValue x_v2]).
Proof.
  intros He.
  pose proof (proj1 (of_values_with_state_one_bucket 600
                       [NewValue x_v1; MutatedValue x_v2]) He
                (NewValue x_v1) (MutatedValue x_v2)) as Htag.
  assert (N = M) as Hnm; [|discriminate Hnm].
  apply Htag; [left|right; left|reflexivity..].
Defined.

Lemma of_values_with_state_iter_witness :
  of_values_with_state (just imported)
    (value_with_state_by_value imported <$> iter imported) = imported.
Proof. apply (of_values_with_state_iter imported). exact one_bucket_imported. Defined.

Lemma Effect_and_Effect_of_witness :
  Effect_and imported (Effect_of 0)
  = Some (MkEffect 0 (new_values imported) (translated_values imported)
            (mutated_values imported) (dead_values imported)) ∧
  Effect_and (Effect_of 0) imported = Some imported.
Proof.
  apply (proj2 (proj2 (Effect_and_Effect_of imported 0))).
  exact one_bucket_imported.
Defined.

(** Without the invariant an Effect that tracks nothing is not neutral. *)
Remark Effect_and_Effect_of_twice_tagged :
  Effect_and (Effect_of 0) twice_tagged
  = Some (MkEffect 600 ∅ ∅ {[1 := 20]} ∅) ∧
  twice_tagged = MkEffect 600 {[1 := 10]} ∅ {[1 := 20]} ∅.
Proof. vm_compute. by split. Qed.

Lemma Effect_and_disjoint_witness :
  Effect_and created other_created
  = Some (MkEffect (just other_created)
            (new_values created ∪ new_values other_created)
            (translated_values created ∪ translated_values other_created)
            (mutated_values created ∪ mutated_values other_created)
            (dead_values created ∪ dead_values other_created)) ∧
  Effect_and other_created created
  = Some (MkEffect (just created)
            (new_values created ∪ new_values other_created)
            (translated_values created ∪ translated_values other_created)
            (mutated_values created ∪ mutated_values other_created)
            (dead_values created ∪ dead_values other_created)).
Proof.
  apply (Effect_and_disjoint created other_created).
  - exact one_bucket_created.
  - exact one_bucket_other_created.
  - apply (bool_decide_unpack _); vm_compute; exact I.
Defined.

Lemma Effect_and_idempotent_witness : Effect_and imported imported = Some imported.
Proof. apply (Effect_and_idempotent imported). exact one_bucket_imported. Defined.

Lemma Effect_and_tracked_witness :
  tracked (MkEffect (K:=nat) (P:=nat) 150 {[1 := 20]} {[2 := 10]} ∅ ∅) !! 2
  = Some 10.
Proof.
  destruct (Effect_and_tracked created changed
              (MkEffect 150 {[1 := 20]} {[2 := 10]} ∅ ∅))
    as (_ & _ & Hright); [vm_compute; reflexivity|].
  apply Hright; vm_compute; reflexivity.
Defined.

Lemma Effect_and_right_version_witness :
  tracked (MkEffect (K:=nat) (P:=nat) 150 {[1 := 20]} {[2 := 10]} ∅ ∅) !! 1
  = Some 20 ∨
  tracked (MkEffect (K:=nat) (P:=nat) 150 {[1 := 20]} {[2 := 10]} ∅ ∅) !! 1
  = None.
Proof.
  apply (Effect_and_right_version created changed
           (MkEffect 150 {[1 := 20]} {[2 := 10]} ∅ ∅) 1 10 20).
  - exact one_bucket_changed.
  - vm_compute; reflexivity.
  - vm_compute; reflexivity.
  - vm_compute; reflexivity.
Defined.

(** When the right operand breaks the invariant, a version that the right
    operand does not yield can survive. *)
Remark Effect_and_right_version_twice_tagged :
  tracked created !! 1 = Some 10 ∧
  tracked twice_tagged !! 1 = Some 20 ∧
  (Effect_and created twice_tagged ≫= λ e, tracked e !! 1) = Some 10.
Proof. vm_compute. by repeat split. Qed.

Lemma Effect_and_raises_by_buckets_witness :
  Effect_and (of_values_with_state tt [NewValue x_v3])
    (of_values_with_state tt [TranslatedValue x_v2; NewValue y_v1]) = None.
Proof.
  apply (Effect_and_raises_by_buckets created imported
           (of_values_with_state tt [NewValue x_v3])
           (of_values_with_state tt [TranslatedValue x_v2; NewValue y_v1])).
  - intros t; destruct t; vm_compute; reflexivity.
  - intros t; destruct t; vm_compute; reflexivity.
  - vm_compute; reflexivity.
Defined.

Lemma and_then_Effect_of_witness :
  and_then imported (λ x, Effect_of (S x))
  = Some (MkEffect 401 (new_values imported) (translated_values imported)
            (mutated_values imported) (dead_values imported)) ∧
  and_then (Effect_of 7) (λ _ : nat, imported) = Some imported.
Proof.
  destruct (and_then_Effect_of imported S 7 (λ _ : nat, imported))
    as [Hright Hleft].
  split; [apply Hright|apply Hleft]; exact one_bucket_imported.
Defined.
